(** * Chunking, ingestion and similarity retrieval

    A shallow embedding of [Embedding.py] (text cleaning, chunking and the
    ingestion loops) and of [app.py] (similarity scoring and top-k
    retrieval), with the properties of the specification proved about it.

    Conventions.
    - A Python [str] is a list of Unicode code points; [len] is [length].
    - Python integers are [Z]; slices and [range] follow CPython for
      negative and out-of-range arguments.
    - A raised exception is the [Raise] case of [result].
    - Embedding components and similarity scores are real numbers: the
      arithmetic of the scoring is exact, rounding is not modelled. *)

From Stdlib Require Import String Ascii.
From Stdlib Require Import List ZArith NArith Bool Lia.
From Stdlib Require Import Reals Lra Sorted Permutation.
Import ListNotations.

Set Implicit Arguments.

(** ** Exceptions *)

Inductive exn : Type :=
| ValueError
| IndexError.

Inductive result (A : Type) : Type :=
| Ok (a : A)
| Raise (e : exn).

Arguments Ok {A} a.
Arguments Raise {A} e.

Definition bind {A B : Type} (r : result A) (k : A -> result B) : result B :=
  match r with
  | Ok a => k a
  | Raise e => Raise e
  end.

Notation "x <- r ;; k" := (bind r (fun x => k))
  (at level 61, r at next level, right associativity).

(** [[f(x) for x in l]]: the first exception aborts the comprehension. *)
Fixpoint traverse {A B : Type} (f : A -> result B) (l : list A) : result (list B) :=
  match l with
  | [] => Ok []
  | x :: l' => y <- f x ;; ys <- traverse f l' ;; Ok (y :: ys)
  end.

(** ** Python sequences *)

Module PySeq.

(** Number of elements of [range(start, stop, step)] for [step <> 0]. *)
Definition range_length (start stop step : Z) : nat :=
  if (0 <? step)%Z then
    if (start <? stop)%Z then Z.to_nat ((stop - start - 1) / step + 1) else 0%nat
  else
    if (stop <? start)%Z then Z.to_nat ((start - stop - 1) / (- step) + 1) else 0%nat.

(** [range(start, stop, step)]; a zero step raises [ValueError]. *)
Definition range (start stop step : Z) : result (list Z) :=
  if (step =? 0)%Z then Raise ValueError
  else Ok (map (fun i => (start + Z.of_nat i * step)%Z)
               (seq 0 (range_length start stop step))).

(** A slice bound brought into [0 .. len]: a negative bound counts from
    the end. *)
Definition clamp (len i : Z) : Z :=
  if (i <? 0)%Z then Z.max 0 (i + len) else Z.min i len.

(** [l[a:b]]. *)
Definition slice {A : Type} (l : list A) (a b : Z) : list A :=
  let n := Z.of_nat (length l) in
  let lo := clamp n a in
  let hi := clamp n b in
  firstn (Z.to_nat (hi - lo)) (skipn (Z.to_nat lo) l).

(** [l[:k]]. *)
Definition slice_to {A : Type} (l : list A) (k : Z) : list A := slice l 0 k.

End PySeq.

(** ** Python strings *)

Module PyStr.

Definition char : Type := N.
Definition str : Type := list char.

Definition space : char := 32%N.

(** [Py_UNICODE_ISSPACE]: the test behind [str.split()], [str.strip()]
    and the class [\s] of a [str] pattern. *)
Definition isspace (c : char) : bool :=
  ((9 <=? c) && (c <=? 13) || (28 <=? c) && (c <=? 32)
   || (c =? 133) || (c =? 160) || (c =? 5760)
   || (8192 <=? c) && (c <=? 8202)
   || (c =? 8232) || (c =? 8233) || (c =? 8239) || (c =? 8287)
   || (c =? 12288))%N.

(** A literal, for examples. *)
Definition lit (s : string) : str :=
  map N_of_ascii (list_ascii_of_string s).

(** [bool(s)]: a string is truthy when it is not empty. *)
Definition truthy (s : str) : bool :=
  match s with
  | [] => false
  | _ :: _ => true
  end.

(** [sep.join(ws)]. *)
Fixpoint join (sep : str) (ws : list str) : str :=
  match ws with
  | [] => []
  | w :: ws' =>
      match ws' with
      | [] => w
      | _ :: _ => w ++ sep ++ join sep ws'
      end
  end.

(** The word being scanned, closed at a separator or at the end. *)
Definition flush (word : str) : list str :=
  match word with
  | [] => []
  | _ :: _ => [word]
  end.

(** The scanner of [s.split()]: [word] holds the characters of the
    current token; whitespace closes it and is skipped. *)
Fixpoint split_from (word : str) (s : str) : list str :=
  match s with
  | [] => flush word
  | c :: r =>
      if isspace c then flush word ++ split_from [] r
      else split_from (word ++ [c]) r
  end.

Definition split (s : str) : list str := split_from [] s.

(** [s.lstrip()]. *)
Fixpoint lstrip (s : str) : str :=
  match s with
  | [] => []
  | c :: r => if isspace c then lstrip r else s
  end.

(** [s.rstrip()]. *)
Definition rstrip (s : str) : str := rev (lstrip (rev s)).

(** [s.strip()]. *)
Definition strip (s : str) : str := rstrip (lstrip s).

(** [re.sub(r'\s+', ' ', s)]: every maximal run of whitespace is replaced
    by one space.  [in_run] tells that the previous character belonged to
    a run whose replacement is already written. *)
Fixpoint sub_ws_from (in_run : bool) (s : str) : str :=
  match s with
  | [] => []
  | c :: r =>
      if isspace c then
        if in_run then sub_ws_from true r else space :: sub_ws_from true r
      else c :: sub_ws_from false r
  end.

Definition sub_ws (s : str) : str := sub_ws_from false s.

End PyStr.

(** ** Embedding.py *)

Module Embedding.
Import PyStr.

Definition CHUNK_SIZE : Z := 1000.
Definition CHUNK_OVERLAP : Z := 200.

Definition clean_text (text : str) : str :=
  let text := sub_ws text in
  strip text.

(** The body of the [for] loop of [chunk_text], over the indices that
    [range] produced. *)
Fixpoint chunk_loop (words : list str) (chunk_size : Z) (indices : list Z) : list str :=
  match indices with
  | [] => []
  | i :: rest =>
      let chunk := join [space] (PySeq.slice words i (i + chunk_size)) in
      if truthy chunk then chunk :: chunk_loop words chunk_size rest
      else chunk_loop words chunk_size rest
  end.

Definition chunk_text (text : str) (chunk_size overlap : Z) : result (list str) :=
  let words := split text in
  indices <- PySeq.range 0 (Z.of_nat (length words)) (chunk_size - overlap) ;;
  Ok (chunk_loop words chunk_size indices).

(** *** Ingestion

    The files read by the batch job and the model behind [embed_chunks]
    are inputs of the embedding. *)

Section Ingestion.

(** JSON values of the posts file, and [str] applied to what
    [post.get] returned. *)
Variable json : Type.
Variable py_str : option json -> str.

(** [model.encode]: a batch of chunks to a batch of vectors. *)
Variable encode : list str -> list (list R).

(** A post object: each field is absent or holds a value. *)
Record post : Type := {
  post_id : option json;
  url : option json;
  content : option str
}.

Record discourse_meta : Type := {
  meta_post_id : str;
  meta_url : option json
}.

Record markdown_meta : Type := {
  meta_file_name : str;
  meta_chunk_index : Z
}.

Record discourse_row : Type := {
  d_id : Z;
  d_post_id : str;
  d_url : option json;
  d_content : str;
  d_embedding : list R
}.

Record markdown_row : Type := {
  m_id : Z;
  m_file_name : str;
  m_chunk_index : Z;
  m_content : str;
  m_embedding : list R
}.

(** The database behind [conn]: two tables, rows in insertion order.  The
    [embedding] column is shown as the vector that the stored blob
    encodes. *)
Record db : Type := {
  discourse_chunks : list discourse_row;
  markdown_chunks : list markdown_row
}.

(** [INTEGER PRIMARY KEY AUTOINCREMENT]: one more than the largest id of
    the table (rows are never deleted). *)
Definition next_id (ids : list Z) : Z := (fold_right Z.max 0 ids + 1)%Z.

Definition insert_discourse (conn : db) (post_id : str) (url : option json)
           (content : str) (emb : list R) : db :=
  {| discourse_chunks :=
       discourse_chunks conn ++
       [{| d_id := next_id (map d_id (discourse_chunks conn));
           d_post_id := post_id; d_url := url;
           d_content := content; d_embedding := emb |}];
     markdown_chunks := markdown_chunks conn |}.

Definition insert_markdown (conn : db) (file_name : str) (chunk_index : Z)
           (content : str) (emb : list R) : db :=
  {| discourse_chunks := discourse_chunks conn;
     markdown_chunks :=
       markdown_chunks conn ++
       [{| m_id := next_id (map m_id (markdown_chunks conn));
           m_file_name := file_name; m_chunk_index := chunk_index;
           m_content := content; m_embedding := emb |}] |}.

(** [l[i]] for [i] in [range(len(...))]. *)
Definition index {A : Type} (l : list A) (i : nat) : result A :=
  match nth_error l i with
  | Some a => Ok a
  | None => Raise IndexError
  end.

(** A [for] loop whose body may raise, threading the loop state. *)
Fixpoint for_each {S A : Type} (body : S -> A -> result S) (l : list A) (st : S)
  : result S :=
  match l with
  | [] => Ok st
  | x :: l' => st' <- body st x ;; for_each body l' st'
  end.

(** One round of the loop over the posts: the state is
    [(chunks, metadata)]. *)
Definition discourse_step (st : list str * list discourse_meta) (p : post)
  : result (list str * list discourse_meta) :=
  let content := clean_text (match content p with Some c => c | None => [] end) in
  if (Z.of_nat (length content) <? 30)%Z then Ok st
  else
    post_chunks <- chunk_text content CHUNK_SIZE CHUNK_OVERLAP ;;
    Ok (fst st ++ post_chunks,
        snd st ++ repeat {| meta_post_id := py_str (post_id p);
                            meta_url := url p |} (length post_chunks)).

Definition discourse_gather (posts : list post)
  : result (list str * list discourse_meta) :=
  for_each discourse_step posts ([], []).

(** [posts] is the parsed [discourse_posts.json], [None] when the file
    does not exist. *)
Definition process_discourse (conn : db) (posts : option (list post)) : result db :=
  match posts with
  | None => Ok conn
  | Some posts =>
      st <- discourse_gather posts ;;
      let chunks := fst st in
      let metadata := snd st in
      let embeddings := encode chunks in
      for_each (fun conn i =>
                  emb <- index embeddings i ;;
                  m <- index metadata i ;;
                  c <- index chunks i ;;
                  Ok (insert_discourse conn (meta_post_id m) (meta_url m) c emb))
               (seq 0 (length chunks)) conn
  end.

(** [name.endswith(suffix)]. *)
Definition endswith (name suffix : str) : bool :=
  if list_eq_dec N.eq_dec
       (skipn (length name - length suffix) name) suffix
  then true else false.

(** One round of the loop over the markdown files; [file] is a name
    with the text read from it. *)
Definition markdown_step (st : list str * list markdown_meta) (file : str * str)
  : result (list str * list markdown_meta) :=
  let content := clean_text (snd file) in
  if (Z.of_nat (length content) <? 30)%Z then Ok st
  else
    file_chunks <- chunk_text content CHUNK_SIZE CHUNK_OVERLAP ;;
    Ok (fst st ++ file_chunks,
        snd st ++ map (fun i => {| meta_file_name := fst file;
                                   meta_chunk_index := Z.of_nat i |})
                      (seq 0 (length file_chunks))).

Definition markdown_gather (files : list (str * str))
  : result (list str * list markdown_meta) :=
  for_each markdown_step files ([], []).

(** [dir] lists [markdown_files] in the order of [os.listdir], each name
    with the content of the file; [None] when the directory does not
    exist. *)
Definition process_markdown (conn : db) (dir : option (list (str * str))) : result db :=
  match dir with
  | None => Ok conn
  | Some entries =>
      let files := filter (fun f => endswith (fst f) (lit ".md")) entries in
      match files with
      | [] => Ok conn
      | _ :: _ =>
          st <- markdown_gather files ;;
          let chunks := fst st in
          let metadata := snd st in
          let embeddings := encode chunks in
          for_each (fun conn i =>
                      emb <- index embeddings i ;;
                      m <- index metadata i ;;
                      c <- index chunks i ;;
                      Ok (insert_markdown conn (meta_file_name m)
                                          (meta_chunk_index m) c emb))
                   (seq 0 (length chunks)) conn
      end
  end.

End Ingestion.

End Embedding.

(** ** app.py *)

Module App.
Import PyStr.

Definition vec : Type := list R.

Definition dot (a b : vec) : R :=
  fold_right Rplus 0%R (map (fun p => (fst p * snd p)%R) (combine a b)).

(** *** [sklearn.metrics.pairwise.cosine_similarity]

    The rows are scaled to unit Euclidean norm, a norm below ten machine
    epsilons (a zero norm among them) being replaced by one, and the
    scaled rows are multiplied. *)

Definition row_norm (a : vec) : R := sqrt (dot a a).

Definition eps : R := (/ 2 ^ 52)%R.

Definition handle_zeros_in_scale (scale : R) : R :=
  if Rlt_dec scale (10 * eps) then 1%R else scale.

Definition normalize (a : vec) : vec :=
  let norm := handle_zeros_in_scale (row_norm a) in
  map (fun x => (x / norm)%R) a.

(** [cosine_similarity([x], [y])[0][0]].  The input check refuses rows
    without features and rows of different lengths. *)
Definition cosine_similarity (x y : vec) : result R :=
  if (length x =? 0)%nat || (length y =? 0)%nat then Raise ValueError
  else if negb (length x =? length y)%nat then Raise ValueError
  else Ok (dot (normalize x) (normalize y)).

(** *** [sorted]

    [list.sort] compares keys with [<] only and is stable; with
    [reverse=True] the list is reversed, sorted and reversed again, so
    that equal keys keep their order.  The stable sort is written as an
    insertion sort. *)

Section Sorted.
Variables A K : Type.
Variable key : A -> K.
Variable lt : K -> K -> bool.

Fixpoint insert (x : A) (l : list A) : list A :=
  match l with
  | [] => [x]
  | y :: r => if lt (key y) (key x) then y :: insert x r else x :: l
  end.

Fixpoint sort_stable (l : list A) : list A :=
  match l with
  | [] => []
  | x :: r => insert x (sort_stable r)
  end.

Definition sorted (reverse : bool) (l : list A) : list A :=
  if reverse then rev (sort_stable (rev l)) else sort_stable l.
End Sorted.

(** [a < b] on scores. *)
Definition Rltb (a b : R) : bool := if Rlt_dec a b then true else false.

(** [a == b] on scores. *)
Definition Reqb (a b : R) : bool := if Req_dec_T a b then true else false.

(** *** Retrieval *)

(** A loaded chunk [(id_, content, emb)] and a scored one
    [(id_, content, score)]. *)
Definition chunk : Type := Z * str * vec.
Definition scored_chunk : Type := Z * str * R.

Definition score (c : scored_chunk) : R := snd c.

Section Retrieval.

(** The sentence-transformer model on the question, and the rows of a
    table as [load_chunks] returns them. *)
Variable get_embedding : str -> vec.
Variable load_chunks : string -> list chunk.

Definition score_chunk (q_emb : vec) (c : chunk) : result scored_chunk :=
  let '(id_, content, emb) := c in
  s <- cosine_similarity q_emb emb ;;
  Ok (id_, content, s).

Definition find_best_match (question : str) (table_name : string) (top_k : Z)
  : result (list scored_chunk) :=
  let q_emb := get_embedding question in
  let chunks := load_chunks table_name in
  scored <- traverse (score_chunk q_emb) chunks ;;
  Ok (PySeq.slice_to (sorted score Rltb true scored) top_k).

End Retrieval.

End App.

(** ** Embedding.py: the batch job *)

Module Batch.
Import PyStr Embedding.

Section Main.

Variable json : Type.
Variable py_str : option json -> str.
Variable encode : list str -> list (list R).

(** The database file that [create_connection] opens: a table is absent
    until it is created. *)
Record store : Type := {
  stored_discourse : option (list (discourse_row json));
  stored_markdown : option (list markdown_row)
}.

(** [CREATE TABLE IF NOT EXISTS], twice: an absent table is created
    empty, a table that exists keeps its rows. *)
Definition create_tables (file : store) : db json :=
  {| discourse_chunks :=
       match stored_discourse file with Some rows => rows | None => [] end;
     markdown_chunks :=
       match stored_markdown file with Some rows => rows | None => [] end |}.

(** The file as a run leaves it. *)
Definition file_of (conn : db json) : store :=
  {| stored_discourse := Some (discourse_chunks conn);
     stored_markdown := Some (markdown_chunks conn) |}.

(** [main]: the posts file and the markdown directory are given as to
    [process_discourse] and [process_markdown]. *)
Definition main (file : store) (posts : option (list (post json)))
           (dir : option (list (str * str))) : result (db json) :=
  let conn := create_tables file in
  conn <- process_discourse py_str encode conn posts ;;
  process_markdown encode conn dir.

End Main.

End Batch.

(** ** app.py: the endpoint *)

Module Api.
Import PyStr App.

Section Endpoint.

Variable get_embedding : str -> vec.
Variable load_chunks : string -> list chunk.

(** The language model: the text of the first choice it returns for a
    prompt, under the limit of 512 tokens and the two stop sequences. *)
Variable llm : str -> str.

Definition newline : char := 10%N.

Definition generate_answer (question context : str) : str :=
  let prompt :=
    lit "[INST] Answer the question based on the context." ++ [newline; newline]
    ++ lit "Context:" ++ [newline] ++ context ++ [newline; newline]
    ++ lit "Question:" ++ [newline] ++ question ++ [newline; newline]
    ++ lit "Answer: [/INST]" in
  strip (llm prompt).

(** The JSON object that the endpoint returns. *)
Record response : Type := {
  answer : str;
  links : list str
}.

Definition answer_question (question : str) : result response :=
  top_discourse <- find_best_match get_embedding load_chunks question
                                   "discourse_chunks" 2 ;;
  top_markdown <- find_best_match get_embedding load_chunks question
                                  "markdown_chunks" 2 ;;
  let context :=
    join [newline] (map (fun x => snd (fst x)) (top_discourse ++ top_markdown)) in
  let answer := generate_answer question context in
  let links := [] in
  Ok {| answer := answer; links := links |}.

End Endpoint.

End Api.

(** ** Vocabulary of the properties *)

Module Props.
Import PyStr.

(** A token: not empty, no whitespace inside. *)
Definition nonspace (c : char) : Prop := isspace c = false.
Definition word (w : str) : Prop := w <> [] /\ Forall nonspace w.

(** No two neighbours of [s] are both whitespace. *)
Fixpoint no_double_ws (s : str) : bool :=
  match s with
  | [] => true
  | a :: r =>
      match r with
      | [] => true
      | b :: _ => negb (isspace a && isspace b) && no_double_ws r
      end
  end.

Definition no_adjacent_ws (s : str) : Prop :=
  forall l1 a b l2,
    s = l1 ++ a :: b :: l2 -> ~ (isspace a = true /\ isspace b = true).

(** Whitespace in [s] is the space character only. *)
Definition only_spaces (s : str) : Prop :=
  forall c, In c s -> isspace c = true -> c = space.

(** [s] does not begin with whitespace. *)
Definition no_leading_ws (s : str) : Prop :=
  forall c r, s = c :: r -> isspace c = false.

(** [s] does not end with whitespace. *)
Definition no_trailing_ws (s : str) : Prop :=
  forall r c, s = r ++ [c] -> isspace c = false.

(** The chunks put back together: all tokens of the first chunk, and of
    every later chunk the tokens after its first [overlap] ones, which
    repeat the end of the chunk before. *)
Definition reassemble (overlap : nat) (chunks : list str) : list str :=
  match chunks with
  | [] => []
  | c :: cs => split c ++ concat (map (fun c' => skipn overlap (split c')) cs)
  end.

(** A string in the form [clean_text] gives. *)
Definition normal (s : str) : Prop :=
  no_adjacent_ws s /\ no_leading_ws s /\ no_trailing_ws s /\ only_spaces s.

(** The id of a loaded or of a scored chunk. *)
Definition id_of {B : Type} (c : Z * str * B) : Z := fst (fst c).

(** The vector of a loaded chunk. *)
Definition emb_of (c : Z * str * list R) : list R := snd c.

(** [p] is an initial segment of [l]. *)
Definition prefix {A : Type} (p l : list A) : Prop := exists r, l = p ++ r.

End Props.

(** ** Vocabulary of the further properties *)

Module PropsMore.
Import PyStr Embedding.

(** What every chunk that the batch job gathers satisfies: it is not
    empty, cleaning leaves it as it is, and it has at most [CHUNK_SIZE]
    tokens. *)
Definition chunk_ok (c : str) : Prop :=
  c <> [] /\ clean_text c = c
  /\ (1 <= Z.of_nat (length (split c)) <= CHUNK_SIZE)%Z.

(** The columns of a row of [discourse_chunks] apart from the id. *)
Definition discourse_columns {json : Type} (r : discourse_row json)
  : str * option json * str * list R :=
  (d_post_id r, d_url r, d_content r, d_embedding r).

(** The columns of a row of [markdown_chunks] apart from the id. *)
Definition markdown_columns (r : markdown_row) : str * Z * str * list R :=
  (m_file_name r, m_chunk_index r, m_content r, m_embedding r).

(** The rows that the insertion loops write: metadata, chunk and vector of
    the same position. *)
Definition zip3 {M : Type} (ms : list M) (cs : list str) (es : list (list R))
  : list (M * str * list R) :=
  combine (combine ms cs) es.

End PropsMore.

(** ** Sample inputs *)

Module Samples.
Import PyStr Embedding App.

Definition a40 : str := lit "AAAAAAAAAAAAAAAAAAAAAAAAAAAAAAAAAAAAAAAA".

(** A stand-in for [str] on the ids of the sample posts. *)
Definition sample_str (v : option Z) : str := lit "1".

Definition sample_post : post Z :=
  {| post_id := Some 1%Z; url := None; content := Some a40 |}.

Definition sample_file : str * str := (lit "notes.md", a40).

(** A model that gives every chunk the same vector, and one that gives
    no vector at all. *)
Definition sample_encode (chunks : list str) : list (list R) :=
  map (fun _ => [1%R; 0%R]) chunks.

Definition silent_encode (chunks : list str) : list (list R) := [].

Definition empty_db : db Z := {| discourse_chunks := []; markdown_chunks := [] |}.

(** The database after the sample post has been ingested with
    [sample_encode]. *)
Definition sample_db : db Z :=
  {| discourse_chunks :=
       [{| d_id := 1%Z; d_post_id := lit "1"; d_url := None;
           d_content := a40; d_embedding := [1%R; 0%R] |}];
     markdown_chunks := [] |}.

(** The database after the sample post has been ingested a second time. *)
Definition sample_db_again : db Z :=
  {| discourse_chunks :=
       [{| d_id := 1%Z; d_post_id := lit "1"; d_url := None;
           d_content := a40; d_embedding := [1%R; 0%R] |};
        {| d_id := 2%Z; d_post_id := lit "1"; d_url := None;
           d_content := a40; d_embedding := [1%R; 0%R] |}];
     markdown_chunks := [] |}.

(** A table whose second vector has three components. *)
Definition uneven_chunks : list chunk :=
  [(1%Z, lit "a", [0%R; 1%R]); (2%Z, lit "b", [2%R; 0%R; 0%R])].

(** The table of the worked query. *)
Definition sample_chunks : list chunk :=
  [(1%Z, lit "a", [0%R; 1%R]); (2%Z, lit "b", [2%R; 0%R]); (3%Z, lit "c", [1%R; 0%R])].

(** A model that always says yes, and the response it leads to. *)
Definition sample_llm (prompt : str) : str := lit "  yes ".

Definition sample_response : Api.response :=
  {| Api.answer := lit "yes"; Api.links := [] |}.

End Samples.

(** * Proofs *)

Import PyStr Embedding App Props PropsMore Samples.

(** ** The definitions on small inputs *)

Example clean_text_example :
  clean_text [32; 97; 9; 10; 98; 32; 32; 99; 13]%N = lit "a b c".
Proof. reflexivity. Qed.

Example split_example :
  split (lit "  to be   or not ") = [lit "to"; lit "be"; lit "or"; lit "not"].
Proof. reflexivity. Qed.

Example chunk_text_empty : chunk_text (lit "") 1000 200 = Ok [].
Proof. reflexivity. Qed.

Example chunk_text_example :
  chunk_text (lit "a b c d e") 3 1 = Ok [lit "a b c"; lit "c d e"; lit "e"].
Proof. reflexivity. Qed.

Example range_example :
  PySeq.range 0 10 3 = Ok [0; 3; 6; 9]%Z
  /\ PySeq.range 0 9 3 = Ok [0; 3; 6]%Z
  /\ PySeq.range 0 3 (-1) = Ok []
  /\ PySeq.range 0 3 0 = Raise ValueError.
Proof. repeat split. Qed.

Example slice_example :
  PySeq.slice [1; 2; 3; 4]%Z 1 3 = [2; 3]%Z
  /\ PySeq.slice [1; 2; 3; 4]%Z 2 9 = [3; 4]%Z
  /\ PySeq.slice_to [1; 2; 3; 4]%Z 2 = [1; 2]%Z
  /\ PySeq.slice_to [1; 2; 3; 4]%Z (-1) = [1; 2; 3]%Z.
Proof. repeat split. Qed.

Example sorted_example :
  sorted snd Z.ltb true [(1, 5); (2, 7); (3, 5); (4, 7)]%Z
  = [(2, 7); (4, 7); (1, 5); (3, 5)]%Z.
Proof. reflexivity. Qed.

(** ** Strings *)

Lemma isspace_space : isspace space = true.
Proof. reflexivity. Qed.

Lemma flush_word (w : str) : w <> [] -> flush w = [w].
Proof. destruct w; [congruence | reflexivity]. Qed.

Lemma join_cons (sep w : str) (ws : list str) :
  ws <> [] -> join sep (w :: ws) = w ++ sep ++ join sep ws.
Proof. destruct ws; [congruence | reflexivity]. Qed.

Lemma word_cons_nonnil (w : str) : word w -> exists c r, w = c :: r /\ nonspace c.
Proof.
  intros [Hne Hall]. destruct w as [|c r]; [congruence|].
  exists c, r. split; [reflexivity | now inversion Hall].
Qed.

Lemma join_words_nonnil (ws : list str) :
  Forall word ws -> ws <> [] -> join [space] ws <> [].
Proof.
  intros Hall Hne. destruct ws as [|w ws]; [congruence|].
  inversion Hall as [|? ? Hw _]; subst.
  destruct (word_cons_nonnil Hw) as (c & r & -> & _).
  destruct ws; simpl; discriminate.
Qed.

(** The scanner goes through a stretch without whitespace by extending
    the current token. *)
Lemma split_from_app_nonspace (w acc s : str) :
  Forall nonspace w -> split_from acc (w ++ s) = split_from (acc ++ w) s.
Proof.
  revert acc. induction w as [|c w IH]; intros acc Hw; simpl.
  - now rewrite app_nil_r.
  - inversion Hw as [|? ? Hc Hw']; subst. unfold nonspace in Hc. rewrite Hc.
    rewrite IH by assumption. now rewrite <- app_assoc.
Qed.

Lemma split_from_words (s acc : str) :
  Forall nonspace acc -> Forall word (split_from acc s).
Proof.
  revert acc. induction s as [|c r IH]; intros acc Hacc; simpl.
  - destruct acc; simpl; constructor; [|constructor].
    split; [discriminate | assumption].
  - destruct (isspace c) eqn:Hc.
    + apply Forall_app. split; [|apply IH; constructor].
      destruct acc; simpl; constructor; [|constructor].
      split; [discriminate | assumption].
    + apply IH. apply Forall_app. split; [assumption|].
      constructor; [exact Hc | constructor].
Qed.

Lemma split_words (s : str) : Forall word (split s).
Proof. apply split_from_words. constructor. Qed.

(** Splitting what [join] produced from tokens gives the tokens back. *)
Lemma split_join (ws : list str) :
  Forall word ws -> split (join [space] ws) = ws.
Proof.
  unfold split. induction ws as [|w ws IH]; intros Hall; [reflexivity|].
  inversion Hall as [|? ? Hw Hws]; subst.
  destruct Hw as [Hne Hns].
  destruct ws as [|w' ws].
  - simpl. rewrite <- (app_nil_r w) at 1.
    rewrite split_from_app_nonspace by assumption. simpl.
    now apply flush_word.
  - rewrite join_cons by discriminate.
    rewrite split_from_app_nonspace by assumption.
    specialize (IH Hws). remember (join [space] (w' :: ws)) as j eqn:Ej.
    simpl. rewrite flush_word by assumption. now rewrite IH.
Qed.

(** *** Stripping *)

Lemma rstrip_snoc (s : str) (c : char) :
  rstrip (s ++ [c]) = if isspace c then rstrip s else s ++ [c].
Proof.
  unfold rstrip. rewrite rev_app_distr. simpl.
  destruct (isspace c); [reflexivity|].
  simpl. now rewrite rev_involutive.
Qed.

Lemma rstrip_app (a b : str) :
  rstrip (a ++ b) = match rstrip b with
                    | [] => rstrip a
                    | _ :: _ => a ++ rstrip b
                    end.
Proof.
  induction b as [|c b IH] using rev_ind.
  - now rewrite app_nil_r.
  - rewrite app_assoc, !rstrip_snoc. destruct (isspace c).
    + exact IH.
    + destruct (b ++ [c]) eqn:E.
      * now destruct b.
      * rewrite <- E. now rewrite app_assoc.
Qed.

Lemma rstrip_nonspace (s : str) : s <> [] -> Forall nonspace s -> rstrip s = s.
Proof.
  intros Hne Hall. destruct s as [|c s] using rev_ind; [congruence|].
  rewrite rstrip_snoc. apply Forall_app in Hall as [_ Hc].
  inversion Hc as [|? ? Hc' _]; subst. unfold nonspace in Hc'. now rewrite Hc'.
Qed.

(** *** [clean_text] is splitting and joining with one space *)

Lemma lstrip_sub_ws_true (s : str) :
  lstrip (sub_ws_from true s) = sub_ws_from true s.
Proof.
  induction s as [|c r IH]; [reflexivity|]. simpl.
  destruct (isspace c) eqn:Hc; [exact IH|]. simpl. now rewrite Hc.
Qed.

Lemma lstrip_sub_ws (s : str) : lstrip (sub_ws s) = sub_ws_from true s.
Proof.
  unfold sub_ws. destruct s as [|c r]; [reflexivity|]. simpl.
  destruct (isspace c) eqn:Hc.
  - simpl. apply lstrip_sub_ws_true.
  - simpl. now rewrite Hc.
Qed.

Lemma rstrip_sub_ws (s : str) :
  rstrip (sub_ws_from true s) = join [space] (split_from [] s)
  /\ forall acc, acc <> [] -> Forall nonspace acc ->
       rstrip (acc ++ sub_ws_from false s) = join [space] (split_from acc s).
Proof.
  induction s as [|c r [IH1 IH2]].
  - split; [reflexivity|]. intros acc Hne Hall. simpl.
    rewrite app_nil_r, flush_word by assumption. simpl.
    now apply rstrip_nonspace.
  - split.
    + simpl. destruct (isspace c) eqn:Hc.
      * exact IH1.
      * apply (IH2 [c]); [discriminate|]. constructor; [exact Hc | constructor].
    + intros acc Hne Hall. simpl. destruct (isspace c) eqn:Hc.
      * rewrite flush_word by assumption. simpl app.
        rewrite rstrip_app.
        change (space :: sub_ws_from true r) with ([space] ++ sub_ws_from true r).
        rewrite rstrip_app, IH1.
        pose proof (split_from_words r (acc := [])) as Hws.
        destruct (split_from [] r) as [|w ws] eqn:E.
        -- simpl. now apply rstrip_nonspace.
        -- assert (Hj : join [space] (w :: ws) <> []).
           { apply join_words_nonnil; [apply Hws; constructor | discriminate]. }
           rewrite (@join_cons [space] acc (w :: ws)) by discriminate.
           destruct (join [space] (w :: ws)) eqn:Ej; [congruence|].
           reflexivity.
      * replace (acc ++ c :: sub_ws_from false r)
          with ((acc ++ [c]) ++ sub_ws_from false r)
          by now rewrite <- app_assoc.
        apply IH2.
        -- now destruct acc.
        -- apply Forall_app. split; [assumption|].
           constructor; [exact Hc | constructor].
Qed.

Lemma clean_text_join_split (t : str) : clean_text t = join [space] (split t).
Proof.
  unfold clean_text, strip. rewrite lstrip_sub_ws. apply rstrip_sub_ws.
Qed.

(** *** Shape of a joined token list *)

Lemma no_double_ws_adjacent (s : str) : no_double_ws s = true -> no_adjacent_ws s.
Proof.
  intros H l1. revert s H. induction l1 as [|x l1 IH]; intros s H a b l2 E [Ha Hb].
  - subst s. simpl in H. rewrite Ha, Hb in H. discriminate.
  - subst s. simpl in H.
    destruct (l1 ++ a :: b :: l2) as [|y r] eqn:E.
    + now destruct l1.
    + apply andb_prop in H as [_ H]. rewrite <- E in H.
      exact (IH _ H a b l2 eq_refl (conj Ha Hb)).
Qed.

Lemma no_double_ws_app_nonspace (w r : str) :
  Forall nonspace w -> no_double_ws r = true -> no_double_ws (w ++ r) = true.
Proof.
  intros Hw Hr. induction Hw as [|c w Hc Hw IH]; [exact Hr|].
  simpl. destruct (w ++ r); [reflexivity|].
  unfold nonspace in Hc. now rewrite Hc, IH.
Qed.

Lemma no_trailing_ws_app (a b : str) :
  b <> [] -> no_trailing_ws b -> no_trailing_ws (a ++ b).
Proof.
  intros Hne Hb r c E.
  destruct (exists_last Hne) as (b' & c' & ->).
  rewrite app_assoc in E. apply app_inj_tail in E as [_ <-].
  exact (Hb b' c' eq_refl).
Qed.

Lemma no_trailing_ws_nonspace (w : str) : Forall nonspace w -> no_trailing_ws w.
Proof.
  intros Hw r c ->. apply Forall_app in Hw as [_ Hc]. now inversion Hc.
Qed.

Lemma join_words_normal (ws : list str) :
  Forall word ws ->
  no_double_ws (join [space] ws) = true
  /\ no_leading_ws (join [space] ws)
  /\ no_trailing_ws (join [space] ws)
  /\ only_spaces (join [space] ws).
Proof.
  induction ws as [|w ws IH]; intros Hall.
  - repeat split; try reflexivity.
    + intros c r E. discriminate.
    + intros r c E. now destruct r.
    + intros c [].
  - inversion Hall as [|? ? Hw Hws]; subst.
    destruct (word_cons_nonnil Hw) as (c0 & w0 & -> & Hc0).
    destruct Hw as [_ Hns].
    destruct ws as [|w' ws].
    + simpl. repeat split.
      * pose proof (no_double_ws_app_nonspace [] Hns eq_refl) as H.
        now rewrite app_nil_r in H.
      * intros c r E. now inversion E; subst.
      * now apply no_trailing_ws_nonspace.
      * intros c Hin Hc. rewrite Forall_forall in Hns.
        specialize (Hns c Hin). unfold nonspace in Hns. congruence.
    + destruct (IH Hws) as (Hd & Hl & Ht & Ho).
      assert (Hj : join [space] (w' :: ws) <> [])
        by (apply join_words_nonnil; [assumption | discriminate]).
      rewrite join_cons by discriminate.
      remember (join [space] (w' :: ws)) as j eqn:Ej.
      repeat split.
      * apply no_double_ws_app_nonspace; [assumption|].
        destruct j as [|c j]; [congruence|].
        change (negb (isspace space && isspace c) && no_double_ws (c :: j) = true).
        rewrite (Hl c j eq_refl). exact Hd.
      * intros c r E. now inversion E; subst.
      * apply no_trailing_ws_app; [now destruct j|].
        apply (no_trailing_ws_app [space]); assumption.
      * intros c Hin Hc. apply in_app_or in Hin as [Hin|[<-|Hin]].
        -- rewrite Forall_forall in Hns. specialize (Hns c Hin).
           unfold nonspace in Hns. congruence.
        -- reflexivity.
        -- now apply Ho.
Qed.

Lemma join_words_is_normal (ws : list str) :
  Forall word ws -> normal (join [space] ws).
Proof.
  intros H. destruct (join_words_normal H) as (Hd & Hl & Ht & Ho).
  repeat split; try assumption. now apply no_double_ws_adjacent.
Qed.

Lemma clean_text_join_words (ws : list str) :
  Forall word ws -> clean_text (join [space] ws) = join [space] ws.
Proof.
  intros H. now rewrite clean_text_join_split, split_join.
Qed.

(** C7. For every string [t], [clean_text t] has no two neighbouring
    whitespace characters, no whitespace at its beginning or end, and is the
    tokens of [t] joined by single spaces, so every run of whitespace of [t]
    between two tokens has become one space character.  The function is
    total: it has a value on every string. *)
Theorem clean_text_normalizes (t : str) :
  no_adjacent_ws (clean_text t)
  /\ no_leading_ws (clean_text t)
  /\ no_trailing_ws (clean_text t)
  /\ only_spaces (clean_text t)
  /\ clean_text t = join [space] (split t)
  /\ Forall word (split t).
Proof.
  pose proof (split_words t) as Hw.
  destruct (join_words_is_normal Hw) as (Ha & Hl & Ht & Ho).
  rewrite clean_text_join_split. repeat split; assumption.
Qed.

(** ** Slices and ranges *)

Lemma Forall_window {A : Type} (P : A -> Prop) (l : list A) (lo k : nat) :
  Forall P l -> Forall P (firstn k (skipn lo l)).
Proof.
  intros H.
  rewrite <- (firstn_skipn lo l) in H. apply Forall_app in H as [_ H].
  rewrite <- (firstn_skipn k (skipn lo l)) in H. now apply Forall_app in H as [H _].
Qed.

Lemma Forall_slice {A : Type} (P : A -> Prop) (l : list A) (a b : Z) :
  Forall P l -> Forall P (PySeq.slice l a b).
Proof. intros H. unfold PySeq.slice. now apply Forall_window. Qed.

(** A window that starts inside or after the list and has a size that is
    not negative. *)
Lemma slice_window {A : Type} (l : list A) (i : nat) (w : Z) :
  (0 <= w)%Z ->
  PySeq.slice l (Z.of_nat i) (Z.of_nat i + w) = firstn (Z.to_nat w) (skipn i l).
Proof.
  intros Hw. unfold PySeq.slice, PySeq.clamp.
  destruct (Z.ltb_spec (Z.of_nat i) 0); [lia|].
  destruct (Z.ltb_spec (Z.of_nat i + w) 0); [lia|].
  destruct (Nat.le_gt_cases i (length l)) as [Hi|Hi].
  - rewrite (Z.min_l (Z.of_nat i)) by lia. rewrite Nat2Z.id.
    destruct (Z.le_gt_cases (Z.of_nat i + w) (Z.of_nat (length l))) as [Hb|Hb].
    + rewrite Z.min_l by lia. f_equal. lia.
    + rewrite Z.min_r by lia.
      assert (Hlen : length (skipn i l) = (length l - i)%nat) by apply length_skipn.
      rewrite !firstn_all2; trivial; lia.
  - rewrite !Z.min_r by lia. rewrite Z.sub_diag. simpl.
    rewrite (skipn_all2 l (n := i)) by lia. now rewrite firstn_nil.
Qed.

Lemma firstn_add {A : Type} (a c : nat) (l : list A) :
  firstn (a + c) l = firstn a l ++ firstn c (skipn a l).
Proof.
  revert l. induction a as [|a IH]; intros l; [reflexivity|].
  destruct l as [|x l]; simpl.
  - now rewrite firstn_nil.
  - now rewrite IH.
Qed.

(** Consecutive windows of [s] elements, from offset [b] on, make up an
    initial segment of what follows [b]. *)
Lemma concat_windows {A : Type} (l : list A) (s b k : nat) :
  concat (map (fun j => firstn s (skipn (b + j * s) l)) (seq 0 k))
  = firstn (k * s) (skipn b l).
Proof.
  induction k as [|k IH]; [reflexivity|].
  rewrite seq_S, map_app, concat_app, IH. simpl.
  rewrite app_nil_r, (Nat.add_comm s), firstn_add, skipn_skipn.
  do 3 f_equal. lia.
Qed.

(** ** Chunking *)

Lemma chunk_loop_windows (l : list str) (w s : Z) (a m : nat) :
  Forall word l -> (0 < w)%Z -> (0 <= s)%Z ->
  (forall i, In i (seq a m) -> (i * Z.to_nat s < length l)%nat) ->
  chunk_loop l w (map (fun i => (0 + Z.of_nat i * s)%Z) (seq a m))
  = map (fun i => join [space] (firstn (Z.to_nat w) (skipn (i * Z.to_nat s) l)))
        (seq a m).
Proof.
  intros Hl Hw Hs. revert a. induction m as [|m IH]; intros a Hin; [reflexivity|].
  simpl seq. simpl map. cbn [chunk_loop].
  replace (Z.of_nat a * s)%Z with (Z.of_nat (a * Z.to_nat s)) by lia.
  rewrite slice_window by lia.
  specialize (Hin a (or_introl eq_refl)) as Ha.
  set (win := firstn (Z.to_nat w) (skipn (a * Z.to_nat s) l)).
  assert (Hwin : win <> []).
  { unfold win. intros E. apply (f_equal (@length _)) in E.
    rewrite length_firstn, length_skipn in E. simpl in E. lia. }
  assert (Hww : Forall word win) by now apply Forall_window.
  pose proof (join_words_nonnil Hww Hwin) as Hj.
  destruct (join [space] win) eqn:Ej; [congruence|]. simpl truthy. cbv iota.
  f_equal. apply IH. intros i Hi. apply Hin. now right.
Qed.

(** With [0 <= overlap < chunk_size] the chunks are the windows of
    [chunk_size] tokens taken every [chunk_size - overlap] tokens; the last
    window starts inside the token list and reaches its end. *)
Lemma chunk_text_windows (t : str) (w o : Z) :
  (0 <= o)%Z -> (o < w)%Z ->
  exists m,
    chunk_text t w o
    = Ok (map (fun i => join [space]
                          (firstn (Z.to_nat w) (skipn (i * Z.to_nat (w - o)) (split t))))
              (seq 0 m))
    /\ (split t = [] -> m = 0%nat)
    /\ (split t <> [] ->
        (1 <= m /\ (m - 1) * Z.to_nat (w - o) < length (split t)
         /\ length (split t) <= m * Z.to_nat (w - o))%nat).
Proof.
  intros Ho Hw. unfold chunk_text, PySeq.range, PySeq.range_length.
  destruct (Z.eqb_spec (w - o) 0); [lia|].
  destruct (Z.ltb_spec 0 (w - o)); [|lia].
  pose proof (split_words t) as Hwords.
  set (l := split t) in *. set (s := (w - o)%Z) in *.
  destruct (Z.ltb_spec 0 (Z.of_nat (length l))) as [Hn|Hn].
  - set (q := ((Z.of_nat (length l) - 0 - 1) / s)%Z).
    assert (Hq : (0 <= q /\ s * q <= Z.of_nat (length l) - 1 < s * (q + 1))%Z).
    { unfold q. rewrite Z.sub_0_r.
      pose proof (Z.div_pos (Z.of_nat (length l) - 1) s) as H0.
      pose proof (Z.mul_div_le (Z.of_nat (length l) - 1) s) as H1.
      pose proof (Z.mul_succ_div_gt (Z.of_nat (length l) - 1) s) as H2.
      lia. }
    exists (Z.to_nat (q + 1)). simpl bind.
    assert (Hlast : ((Z.to_nat (q + 1) - 1) * Z.to_nat s < length l)%nat) by nia.
    split; [|split].
    + f_equal. apply chunk_loop_windows; try assumption; try lia.
      intros i Hi. apply in_seq in Hi. nia.
    + intros E. rewrite E in Hn. simpl in Hn. lia.
    + intros _. repeat split; [lia | exact Hlast | nia].
  - exists 0%nat. simpl. split; [reflexivity|]. split; [reflexivity|].
    intros Hne. destruct l; [congruence | simpl in Hn; lia].
Qed.

Lemma chunk_loop_normal (l : list str) (w : Z) (indices : list Z) :
  Forall word l ->
  Forall (fun c => clean_text c = c /\ normal c) (chunk_loop l w indices).
Proof.
  intros Hl. induction indices as [|i rest IH]; [constructor|].
  cbn [chunk_loop].
  pose proof (Forall_slice i (i + w) Hl) as Hs.
  destruct (truthy _); [|exact IH].
  constructor; [|exact IH].
  split; [now apply clean_text_join_words | now apply join_words_is_normal].
Qed.

(** Whatever the parameters, the chunks that [chunk_text] returns are in
    normal form. *)
Lemma chunk_text_normal (t : str) (w o : Z) (cs : list str) :
  chunk_text t w o = Ok cs ->
  Forall (fun c => clean_text c = c /\ normal c) cs.
Proof.
  unfold chunk_text. destruct (PySeq.range _ _ _) as [indices|e]; simpl; [|discriminate].
  intros [= <-]. apply chunk_loop_normal, split_words.
Qed.

(** C10. For every string [t], normalized or not, and all
    [chunk_size > overlap >= 0], [chunk_text] returns a list of chunks and
    every chunk [c] of it satisfies [clean_text c = c]: it has no two
    neighbouring whitespace characters and no whitespace at its beginning
    or end, its tokens being joined by single spaces. *)
Theorem chunk_text_chunks_fixed_by_clean_text (t : str) (w o : Z) :
  (0 <= o)%Z -> (o < w)%Z ->
  exists cs,
    chunk_text t w o = Ok cs
    /\ Forall (fun c => clean_text c = c
                        /\ no_adjacent_ws c /\ no_leading_ws c /\ no_trailing_ws c)
              cs.
Proof.
  intros Ho Hw. destruct (chunk_text_windows t Ho Hw) as (m & E & _).
  eexists. split; [exact E|].
  apply chunk_text_normal in E.
  eapply Forall_impl; [|exact E].
  intros c (Hc & Ha & Hl & Ht & _). auto.
Qed.

Lemma chunk_text_chunks_fixed_by_clean_text_witness :
  exists cs,
    chunk_text (lit "  to be   or not ") 3 1 = Ok cs
    /\ Forall (fun c => clean_text c = c
                        /\ no_adjacent_ws c /\ no_leading_ws c /\ no_trailing_ws c)
              cs.
Proof.
  apply (@chunk_text_chunks_fixed_by_clean_text (lit "  to be   or not ") 3 1); lia.
Defined.

(** C4. For every string [t] and all [chunk_size > overlap >= 0],
    [chunk_text] returns chunks which, put back together by taking all
    tokens of the first chunk and dropping from every later chunk the
    [overlap] leading tokens it shares with the chunk before, give exactly
    the whitespace-delimited tokens of [t], in order. *)
Theorem chunk_text_reassembles (t : str) (w o : Z) :
  (0 <= o)%Z -> (o < w)%Z ->
  exists cs,
    chunk_text t w o = Ok cs /\ reassemble (Z.to_nat o) cs = split t.
Proof.
  intros Ho Hw. destruct (chunk_text_windows t Ho Hw) as (m & E & Hnil & Hcons).
  eexists. split; [exact E|].
  pose proof (split_words t) as Hwords.
  set (l := split t) in *. set (S := Z.to_nat (w - o)) in *.
  set (W := Z.to_nat w). set (O := Z.to_nat o).
  assert (Hdec : l = [] \/ l <> [])
    by (destruct l; [left | right]; congruence).
  destruct Hdec as [En|Hne].
  - rewrite (Hnil En). simpl. now rewrite En.
  - destruct (Hcons Hne) as (Hm & Hlast & Hend).
    destruct m as [|m]; [lia|].
    simpl seq. simpl map. unfold reassemble.
    rewrite split_join by exact (@Forall_window _ word l 0 W Hwords).
    rewrite map_map, <- seq_shift, map_map.
    rewrite (map_ext _ (fun j => firstn S (skipn (W + j * S) l))).
    + rewrite concat_windows. simpl skipn at 1.
      rewrite <- firstn_add. apply firstn_all2.
      replace (Datatypes.S m - 1)%nat with m in Hlast by lia.
      assert (S <= W)%nat by (unfold S, W; lia).
      simpl in Hend. lia.
    + intros j. rewrite split_join by now apply Forall_window.
      rewrite skipn_firstn_comm, skipn_skipn. f_equal; [unfold S, W, O; lia|].
      f_equal. unfold S, W, O. nia.
Qed.

Lemma chunk_text_reassembles_witness :
  exists cs,
    chunk_text (lit "a b c d e") 4 2 = Ok cs
    /\ reassemble (Z.to_nat 2) cs = split (lit "a b c d e").
Proof.
  apply (@chunk_text_reassembles (lit "a b c d e") 4 2); lia.
Defined.

(** C2, as the code has it.  A string [t] with at least one token, fewer
    than [chunk_size] tokens and at most [chunk_size - overlap] tokens gives
    exactly one chunk, which is [clean_text t]: the tokens of [t] joined by
    single spaces, and [t] itself when [t] is already normalized. *)
Theorem chunk_text_short_text (t : str) (w o : Z) :
  (1 <= Z.of_nat (length (split t)))%Z ->
  (Z.of_nat (length (split t)) < w)%Z ->
  (Z.of_nat (length (split t)) <= w - o)%Z ->
  chunk_text t w o = Ok [clean_text t]
  /\ (clean_text t = t -> chunk_text t w o = Ok [t]).
Proof.
  intros H1 Hw Hs.
  assert (E : chunk_text t w o = Ok [clean_text t]).
  { rewrite clean_text_join_split.
    unfold chunk_text, PySeq.range, PySeq.range_length.
    pose proof (split_words t) as Hwords.
    set (l := split t) in *.
    destruct (Z.eqb_spec (w - o) 0); [lia|].
    destruct (Z.ltb_spec 0 (w - o)); [|lia].
    destruct (Z.ltb_spec 0 (Z.of_nat (length l))); [|lia].
    rewrite Z.div_small by lia. simpl bind. cbn [chunk_loop].
    pose proof (@slice_window _ l 0 w) as Hsl. simpl in Hsl.
    rewrite Hsl by lia.
    rewrite firstn_all2 by lia.
    assert (Hj : join [space] l <> []).
    { apply join_words_nonnil; [assumption|]. destruct l; [simpl in H1; lia | discriminate]. }
    now destruct (join [space] l). }
  split; [exact E|]. intros Hn. now rewrite Hn in E.
Qed.

Lemma chunk_text_short_text_witness :
  chunk_text (lit "a b c") 4 1 = Ok [clean_text (lit "a b c")]
  /\ (clean_text (lit "a b c") = lit "a b c" ->
      chunk_text (lit "a b c") 4 1 = Ok [lit "a b c"]).
Proof.
  apply (@chunk_text_short_text (lit "a b c") 4 1); vm_compute; congruence.
Defined.

(** C2 as stated fails.  Three tokens with a window of four and an overlap
    of two give two chunks; a text that is not normalized gives a chunk
    that differs from it; a text of whitespace only gives no chunk. *)
Lemma chunk_text_short_text_counterexample :
  ((0 <= 2 < 4)%Z
   /\ lit "a b c" <> []
   /\ (Z.of_nat (length (split (lit "a b c"))) < 4)%Z
   /\ chunk_text (lit "a b c") 4 2 = Ok [lit "a b c"; lit "c"]
   /\ chunk_text (lit "a b c") 4 2 <> Ok [lit "a b c"])
  /\ ((Z.of_nat (length (split (lit "a  b"))) < 4)%Z
      /\ chunk_text (lit "a  b") 4 0 = Ok [lit "a b"]
      /\ chunk_text (lit "a  b") 4 0 <> Ok [lit "a  b"])
  /\ (lit " " <> []
      /\ (Z.of_nat (length (split (lit " "))) < 4)%Z
      /\ chunk_text (lit " ") 4 0 = Ok []).
Proof.
  repeat split; try reflexivity; try lia; vm_compute; discriminate.
Qed.

(** C3, as the code has it.  Nothing checks the configuration.  With
    [overlap = chunk_size] every call of [chunk_text] raises [ValueError],
    from [range] with a zero step; with [overlap > chunk_size] every call
    returns the empty list, whatever the text.  No call loops. *)
Theorem chunk_text_overlap_not_below_size (t : str) (w o : Z) :
  (o = w -> chunk_text t w o = Raise ValueError)
  /\ ((w < o)%Z -> chunk_text t w o = Ok []).
Proof.
  unfold chunk_text, PySeq.range, PySeq.range_length. split.
  - intros ->. now rewrite Z.sub_diag.
  - intros H.
    destruct (Z.eqb_spec (w - o) 0); [lia|].
    destruct (Z.ltb_spec 0 (w - o)); [lia|].
    destruct (Z.ltb_spec (Z.of_nat (length (split t))) 0); [lia|].
    reflexivity.
Qed.

Lemma chunk_text_overlap_not_below_size_witness :
  chunk_text (lit "a b c") 2 2 = Raise ValueError
  /\ chunk_text (lit "a b c") 2 5 = Ok [].
Proof.
  split.
  - apply (proj1 (chunk_text_overlap_not_below_size (lit "a b c") 2 2)). reflexivity.
  - apply (proj2 (chunk_text_overlap_not_below_size (lit "a b c") 2 5)). lia.
Defined.

(** C3 as stated fails: an overlap above the window size is not rejected,
    the call returns normally and yields no chunk. *)
Lemma chunk_text_overlap_not_below_size_counterexample :
  (3 >= 2)%Z /\ chunk_text (lit "a b c") 2 3 = Ok []
  /\ chunk_text (lit "a b c") 2 3 <> Raise ValueError.
Proof.
  repeat split; [lia | discriminate].
Qed.

(** ** Ingestion *)

Lemma for_each_app {S A : Type} (body : S -> A -> result S) (l1 l2 : list A) (st : S) :
  for_each body (l1 ++ l2) st = (st' <- for_each body l1 st ;; for_each body l2 st').
Proof.
  revert st. induction l1 as [|x l1 IH]; intros st; [reflexivity|].
  simpl. destruct (body st x); simpl; [apply IH | reflexivity].
Qed.

(** The default configuration never raises. *)
Lemma chunk_text_default (t : str) :
  exists cs, chunk_text t CHUNK_SIZE CHUNK_OVERLAP = Ok cs
             /\ (split t <> [] -> cs <> []).
Proof.
  destruct (@chunk_text_windows t CHUNK_SIZE CHUNK_OVERLAP) as (m & E & _ & Hm);
    [unfold CHUNK_OVERLAP; lia | unfold CHUNK_SIZE, CHUNK_OVERLAP; lia |].
  eexists. split; [exact E|]. intros Hne. destruct (Hm Hne) as (H1 & _).
  destruct m; [lia | discriminate].
Qed.

(** A cleaned text that is not empty has a token. *)
Lemma clean_text_tokens (t : str) :
  clean_text t <> [] -> split (clean_text t) <> [].
Proof.
  rewrite clean_text_join_split, split_join by apply split_words.
  now destruct (split t).
Qed.

(** A loop whose body only appends to the two lists of its state: what a
    round adds does not depend on the state it starts from. *)
Section AppendingLoop.

Variables A X Y : Type.
Variable body : list X * list Y -> A -> result (list X * list Y).

Hypothesis body_appends :
  forall st x,
    body st x = (c <- body ([], []) x ;; Ok (fst st ++ fst c, snd st ++ snd c)).

Lemma for_each_appends (l : list A) (st : list X * list Y) :
  for_each body l st
  = (r <- for_each body l ([], []) ;; Ok (fst st ++ fst r, snd st ++ snd r)).
Proof.
  revert st. induction l as [|x l IH]; intros st.
  - simpl. now rewrite !app_nil_r, <- surjective_pairing.
  - simpl. rewrite (body_appends st x).
    destruct (body ([], []) x) as [c|e]; simpl; [|reflexivity].
    rewrite (IH (fst st ++ fst c, snd st ++ snd c)), (IH c).
    destruct (for_each body l ([], [])) as [r|e]; simpl; [|reflexivity].
    now rewrite !app_assoc.
Qed.

Lemma for_each_middle (l1 l2 : list A) (x : A) :
  for_each body (l1 ++ x :: l2) ([], [])
  = (r1 <- for_each body l1 ([], []) ;;
     c <- body ([], []) x ;;
     r2 <- for_each body l2 ([], []) ;;
     Ok (fst r1 ++ fst c ++ fst r2, snd r1 ++ snd c ++ snd r2)).
Proof.
  rewrite for_each_app.
  destruct (for_each body l1 ([], [])) as [r1|e]; simpl; [|reflexivity].
  rewrite (body_appends r1 x).
  destruct (body ([], []) x) as [c|e]; simpl; [|reflexivity].
  rewrite for_each_appends.
  destruct (for_each body l2 ([], [])) as [r2|e]; simpl; [|reflexivity].
  now rewrite <- !app_assoc.
Qed.

(** A round that adds nothing can be left out. *)
Lemma for_each_skip (l1 l2 : list A) (x : A) :
  (forall st, body st x = Ok st) ->
  forall st, for_each body (l1 ++ x :: l2) st = for_each body (l1 ++ l2) st.
Proof.
  intros Hx st. rewrite !for_each_app.
  destruct (for_each body l1 st) as [st'|e]; simpl; [|reflexivity].
  now rewrite Hx.
Qed.

End AppendingLoop.

Section IngestionFacts.

Variable json : Type.
Variable py_str : option json -> str.
Variable encode : list str -> list (list R).

Local Abbreviation text_of p := (match content p with Some c => c | None => [] end).

Lemma discourse_step_short (st : list str * list (discourse_meta json)) (p : post json) :
  (length (clean_text (text_of p)) < 30)%nat ->
  discourse_step py_str st p = Ok st.
Proof.
  intros H. unfold discourse_step.
  destruct (Z.ltb_spec (Z.of_nat (length (clean_text (text_of p)))) 30); [reflexivity | lia].
Qed.

Lemma markdown_step_short (st : list str * list markdown_meta) (f : str * str) :
  (length (clean_text (snd f)) < 30)%nat ->
  markdown_step st f = Ok st.
Proof.
  intros H. unfold markdown_step.
  destruct (Z.ltb_spec (Z.of_nat (length (clean_text (snd f)))) 30); [reflexivity | lia].
Qed.

Lemma discourse_step_long (st : list str * list (discourse_meta json)) (p : post json) :
  (30 <= length (clean_text (text_of p)))%nat ->
  exists cs,
    chunk_text (clean_text (text_of p)) CHUNK_SIZE CHUNK_OVERLAP = Ok cs
    /\ cs <> []
    /\ discourse_step py_str st p
       = Ok (fst st ++ cs,
             snd st ++ repeat {| meta_post_id := py_str (post_id p);
                                 meta_url := url p |} (length cs)).
Proof.
  intros H. unfold discourse_step.
  destruct (Z.ltb_spec (Z.of_nat (length (clean_text (text_of p)))) 30); [lia|].
  destruct (chunk_text_default (clean_text (text_of p))) as (cs & E & Hne).
  exists cs. rewrite E. repeat split.
  apply Hne, clean_text_tokens. destruct (clean_text (text_of p)); [simpl in H; lia | discriminate].
Qed.

Lemma markdown_step_long (st : list str * list markdown_meta) (f : str * str) :
  (30 <= length (clean_text (snd f)))%nat ->
  exists cs,
    chunk_text (clean_text (snd f)) CHUNK_SIZE CHUNK_OVERLAP = Ok cs
    /\ cs <> []
    /\ markdown_step st f
       = Ok (fst st ++ cs,
             snd st ++ map (fun i => {| meta_file_name := fst f;
                                        meta_chunk_index := Z.of_nat i |})
                           (seq 0 (length cs))).
Proof.
  intros H. unfold markdown_step.
  destruct (Z.ltb_spec (Z.of_nat (length (clean_text (snd f)))) 30); [lia|].
  destruct (chunk_text_default (clean_text (snd f))) as (cs & E & Hne).
  exists cs. rewrite E. repeat split.
  apply Hne, clean_text_tokens. destruct (clean_text (snd f)); [simpl in H; lia | discriminate].
Qed.

Lemma discourse_step_appends (st : list str * list (discourse_meta json)) (p : post json) :
  discourse_step py_str st p
  = (c <- discourse_step py_str ([], []) p ;;
     Ok (fst st ++ fst c, snd st ++ snd c)).
Proof.
  unfold discourse_step.
  destruct (Z.of_nat (length (clean_text (text_of p))) <? 30)%Z.
  - simpl. now rewrite !app_nil_r, <- surjective_pairing.
  - now destruct (chunk_text (clean_text (text_of p)) CHUNK_SIZE CHUNK_OVERLAP).
Qed.

Lemma markdown_step_appends (st : list str * list markdown_meta) (f : str * str) :
  markdown_step st f
  = (c <- markdown_step ([], []) f ;; Ok (fst st ++ fst c, snd st ++ snd c)).
Proof.
  unfold markdown_step.
  destruct (Z.of_nat (length (clean_text (snd f))) <? 30)%Z.
  - simpl. now rewrite !app_nil_r, <- surjective_pairing.
  - now destruct (chunk_text (clean_text (snd f)) CHUNK_SIZE CHUNK_OVERLAP).
Qed.

Lemma discourse_gather_skip (l1 l2 : list (post json)) (p : post json) :
  (length (clean_text (text_of p)) < 30)%nat ->
  discourse_gather py_str (l1 ++ p :: l2) = discourse_gather py_str (l1 ++ l2).
Proof.
  intros H. unfold discourse_gather. apply for_each_skip.
  intros st. now apply discourse_step_short.
Qed.

Lemma markdown_gather_skip (l1 l2 : list (str * str)) (f : str * str) :
  (length (clean_text (snd f)) < 30)%nat ->
  markdown_gather (l1 ++ f :: l2) = markdown_gather (l1 ++ l2).
Proof.
  intros H. unfold markdown_gather. apply for_each_skip.
  intros st. now apply markdown_step_short.
Qed.

Lemma process_markdown_skip (conn : db json) (d1 d2 : list (str * str)) (f : str * str) :
  (length (clean_text (snd f)) < 30)%nat ->
  process_markdown encode conn (Some (d1 ++ f :: d2))
  = process_markdown encode conn (Some (d1 ++ d2)).
Proof.
  intros H. unfold process_markdown. rewrite !filter_app. simpl filter.
  destruct (endswith (fst f) (lit ".md")); [|reflexivity].
  set (F1 := filter _ d1). set (F2 := filter _ d2).
  destruct (F1 ++ F2) as [|g G] eqn:E.
  - apply app_eq_nil in E as [-> ->]. simpl app.
    unfold markdown_gather. simpl for_each.
    rewrite markdown_step_short by assumption. reflexivity.
  - rewrite <- E. rewrite markdown_gather_skip by assumption.
    destruct (F1 ++ f :: F2) eqn:E'; [now destruct F1|]. reflexivity.
Qed.

(** C8. A post or a markdown file whose cleaned content has fewer than
    30 characters leaves no trace: ingesting with it gives the same
    database as ingesting without it.  A post, or a file that reaches the
    loop, with 30 characters or more is chunked with the default
    configuration, which gives at least one chunk, and its chunks and
    their metadata are gathered between those of the documents before
    and after it. *)
Theorem short_documents_are_dropped :
  (forall (conn : db json) l1 p l2,
      (length (clean_text (text_of p)) < 30)%nat ->
      process_discourse py_str encode conn (Some (l1 ++ p :: l2))
      = process_discourse py_str encode conn (Some (l1 ++ l2)))
  /\ (forall (conn : db json) d1 f d2,
         (length (clean_text (snd f)) < 30)%nat ->
         process_markdown encode conn (Some (d1 ++ f :: d2))
         = process_markdown encode conn (Some (d1 ++ d2)))
  /\ (forall l1 p l2,
         (30 <= length (clean_text (text_of p)))%nat ->
         exists cs,
           chunk_text (clean_text (text_of p)) CHUNK_SIZE CHUNK_OVERLAP = Ok cs
           /\ cs <> []
           /\ discourse_gather py_str (l1 ++ p :: l2)
              = (r1 <- discourse_gather py_str l1 ;;
                 r2 <- discourse_gather py_str l2 ;;
                 Ok (fst r1 ++ cs ++ fst r2,
                     snd r1
                     ++ repeat {| meta_post_id := py_str (post_id p);
                                  meta_url := url p |} (length cs)
                     ++ snd r2)))
  /\ (forall l1 f l2,
         (30 <= length (clean_text (snd f)))%nat ->
         exists cs,
           chunk_text (clean_text (snd f)) CHUNK_SIZE CHUNK_OVERLAP = Ok cs
           /\ cs <> []
           /\ markdown_gather (l1 ++ f :: l2)
              = (r1 <- markdown_gather l1 ;;
                 r2 <- markdown_gather l2 ;;
                 Ok (fst r1 ++ cs ++ fst r2,
                     snd r1
                     ++ map (fun i => {| meta_file_name := fst f;
                                         meta_chunk_index := Z.of_nat i |})
                            (seq 0 (length cs))
                     ++ snd r2))).
Proof.
  repeat apply conj.
  - intros conn l1 p l2 H. unfold process_discourse.
    now rewrite discourse_gather_skip.
  - intros conn d1 f d2 H. now apply process_markdown_skip.
  - intros l1 p l2 H.
    destruct (discourse_step_long ([], []) p H) as (cs & E & Hne & Estep).
    exists cs. repeat split; try assumption.
    unfold discourse_gather.
    rewrite (for_each_middle _ discourse_step_appends), Estep.
    destruct (for_each _ l1 _); simpl; [|reflexivity].
    now destruct (for_each _ l2 _).
  - intros l1 f l2 H.
    destruct (markdown_step_long ([], []) f H) as (cs & E & Hne & Estep).
    exists cs. repeat split; try assumption.
    unfold markdown_gather.
    rewrite (for_each_middle _ markdown_step_appends), Estep.
    destruct (for_each _ l1 _); simpl; [|reflexivity].
    now destruct (for_each _ l2 _).
Qed.

End IngestionFacts.

Lemma short_documents_are_dropped_witness :
  (process_discourse (fun _ : option Z => lit "1") (map (fun _ => []))
     {| discourse_chunks := []; markdown_chunks := [] |}
     (Some ([] ++ {| post_id := Some 1%Z; url := None;
                     content := Some (lit " too   short ") |} :: []))
   = process_discourse (fun _ : option Z => lit "1") (map (fun _ => []))
       {| discourse_chunks := []; markdown_chunks := [] |} (Some ([] ++ [])))
  /\ (exists cs,
         chunk_text (clean_text (lit "AAAAAAAAAAAAAAAAAAAAAAAAAAAAAAAAAAAAAAAA"))
                    CHUNK_SIZE CHUNK_OVERLAP = Ok cs
         /\ cs <> []
         /\ discourse_gather (fun _ : option Z => lit "1")
              ([] ++ {| post_id := Some 1%Z; url := None;
                        content := Some (lit "AAAAAAAAAAAAAAAAAAAAAAAAAAAAAAAAAAAAAAAA") |}
                  :: [])
            = (r1 <- discourse_gather (fun _ : option Z => lit "1") [] ;;
               r2 <- discourse_gather (fun _ : option Z => lit "1") [] ;;
               Ok (fst r1 ++ cs ++ fst r2,
                   snd r1
                   ++ repeat {| meta_post_id := lit "1"; meta_url := None |} (length cs)
                   ++ snd r2))).
Proof.
  destruct (@short_documents_are_dropped Z (fun _ => lit "1") (map (fun _ => [])))
    as (H1 & _ & H3 & _).
  split.
  - apply H1. vm_compute. lia.
  - apply (H3 [] {| post_id := Some 1%Z; url := None;
                    content := Some (lit "AAAAAAAAAAAAAAAAAAAAAAAAAAAAAAAAAAAAAAAA") |} []).
    vm_compute. lia.
Defined.

(** ** Sorting *)

Section SortedFacts.

Variables A K : Type.
Variable key : A -> K.
Variable lt : K -> K -> bool.

Lemma insert_length (x : A) (l : list A) :
  length (insert key lt x l) = S (length l).
Proof.
  induction l as [|y r IH]; [reflexivity|]. simpl.
  destruct (lt (key y) (key x)); simpl; [now rewrite IH | reflexivity].
Qed.

Lemma sort_stable_length (l : list A) : length (sort_stable key lt l) = length l.
Proof.
  induction l as [|x r IH]; [reflexivity|]. simpl. now rewrite insert_length, IH.
Qed.

Lemma sorted_length (reverse : bool) (l : list A) :
  length (sorted key lt reverse l) = length l.
Proof.
  unfold sorted. destruct reverse.
  - now rewrite length_rev, sort_stable_length, length_rev.
  - apply sort_stable_length.
Qed.

Lemma insert_In (x y : A) (l : list A) :
  In y (insert key lt x l) <-> y = x \/ In y l.
Proof.
  induction l as [|z r IH]; simpl; [intuition congruence|].
  destruct (lt (key z) (key x)); simpl; [rewrite IH|]; intuition congruence.
Qed.

Lemma sort_stable_In (y : A) (l : list A) :
  In y (sort_stable key lt l) <-> In y l.
Proof.
  induction l as [|x r IH]; simpl; [tauto|].
  rewrite insert_In, IH. intuition congruence.
Qed.

(** *** Stability

    [P] selects elements none of which is below another: elements of
    one key, for instance. *)

Variable P : A -> bool.
Hypothesis P_level :
  forall x y, P x = true -> P y = true -> lt (key y) (key x) = false.

Lemma filter_insert (x : A) (l : list A) :
  filter P (insert key lt x l) = filter P (x :: l).
Proof.
  induction l as [|y r IH]; [reflexivity|]. simpl insert.
  destruct (lt (key y) (key x)) eqn:E; [|reflexivity].
  simpl in *. rewrite IH.
  destruct (P x) eqn:Px, (P y) eqn:Py; try reflexivity.
  rewrite (P_level Px Py) in E. discriminate.
Qed.

Lemma filter_sort_stable (l : list A) :
  filter P (sort_stable key lt l) = filter P l.
Proof.
  induction l as [|x r IH]; [reflexivity|]. simpl sort_stable.
  rewrite filter_insert. simpl. now rewrite IH.
Qed.

Lemma filter_sorted (reverse : bool) (l : list A) :
  filter P (sorted key lt reverse l) = filter P l.
Proof.
  unfold sorted. destruct reverse.
  - now rewrite filter_rev, filter_sort_stable, filter_rev, rev_involutive.
  - apply filter_sort_stable.
Qed.

End SortedFacts.

Section SortedOrder.

Variables A K : Type.
Variable key : A -> K.
Variable lt : K -> K -> bool.

Hypothesis lt_asym : forall a b, lt a b = true -> lt b a = false.
Hypothesis nlt_trans :
  forall a b c, lt b a = false -> lt c b = false -> lt c a = false.

(** [x] is not above [y]. *)
Let le (x y : A) : Prop := lt (key y) (key x) = false.

Lemma insert_sorted (x : A) (l : list A) :
  StronglySorted le l -> StronglySorted le (insert key lt x l).
Proof.
  induction 1 as [|y r Hs IH Hy]; simpl.
  - constructor; constructor.
  - destruct (lt (key y) (key x)) eqn:E.
    + constructor; [exact IH|].
      apply Forall_forall. intros z Hz. apply insert_In in Hz as [->|Hz].
      * now apply lt_asym.
      * rewrite Forall_forall in Hy. now apply Hy.
    + constructor; [now constructor|].
      constructor; [exact E|].
      eapply Forall_impl; [|exact Hy]. intros z Hz. eapply nlt_trans; eassumption.
Qed.

Lemma sort_stable_sorted (l : list A) : StronglySorted le (sort_stable key lt l).
Proof.
  induction l as [|x r IH]; simpl; [constructor | now apply insert_sorted].
Qed.

End SortedOrder.

Lemma StronglySorted_app_inv {A : Type} (R : A -> A -> Prop) (l1 l2 : list A) :
  StronglySorted R (l1 ++ l2) ->
  StronglySorted R l1 /\ StronglySorted R l2
  /\ forall x y, In x l1 -> In y l2 -> R x y.
Proof.
  induction l1 as [|a l1 IH]; simpl; intros H.
  - repeat split; [constructor | exact H | intros x y []].
  - inversion H as [|? ? Hs Ha]; subst. destruct (IH Hs) as (H1 & H2 & H12).
    repeat split; try assumption.
    + constructor; [exact H1|]. apply Forall_app in Ha. tauto.
    + intros x y [<-|Hx] Hy.
      * rewrite Forall_forall in Ha. apply Ha, in_or_app. now right.
      * now apply H12.
Qed.

Lemma StronglySorted_app {A : Type} (R : A -> A -> Prop) (l1 l2 : list A) :
  StronglySorted R l1 -> StronglySorted R l2 ->
  (forall x y, In x l1 -> In y l2 -> R x y) ->
  StronglySorted R (l1 ++ l2).
Proof.
  intros H1 H2 H12. induction H1 as [|a l1 Hs IH Ha]; [exact H2|].
  simpl. constructor.
  - apply IH. intros x y Hx. apply H12. now right.
  - apply Forall_app. split; [exact Ha|].
    apply Forall_forall. intros y Hy. apply H12; [now left | exact Hy].
Qed.

Lemma StronglySorted_rev {A : Type} (R : A -> A -> Prop) (l : list A) :
  StronglySorted R l -> StronglySorted (fun a b => R b a) (rev l).
Proof.
  induction 1 as [|a l Hs IH Ha]; simpl; [constructor|].
  apply StronglySorted_app; [exact IH | repeat constructor |].
  intros x y Hx [<-|[]]. apply in_rev in Hx.
  rewrite Forall_forall in Ha. now apply Ha.
Qed.

Lemma StronglySorted_firstn {A : Type} (R : A -> A -> Prop) (n : nat) (l : list A) :
  StronglySorted R l -> StronglySorted R (firstn n l).
Proof.
  intros H. rewrite <- (firstn_skipn n l) in H.
  now apply StronglySorted_app_inv in H.
Qed.

Lemma StronglySorted_filter {A : Type} (R : A -> A -> Prop) (f : A -> bool) (l : list A) :
  StronglySorted R l -> StronglySorted R (filter f l).
Proof.
  induction 1 as [|a l Hs IH Ha]; simpl; [constructor|].
  destruct (f a); [|exact IH]. constructor; [exact IH|].
  rewrite Forall_forall in *. intros x Hx. apply filter_In in Hx. now apply Ha.
Qed.

(** [l[:k]] is an initial segment of [l]. *)
Lemma slice_to_firstn {A : Type} (l : list A) (k : Z) :
  PySeq.slice_to l k
  = firstn (Z.to_nat (PySeq.clamp (Z.of_nat (length l)) k)) l.
Proof.
  unfold PySeq.slice_to, PySeq.slice.
  assert (E : PySeq.clamp (Z.of_nat (length l)) 0 = 0%Z).
  { unfold PySeq.clamp. simpl. lia. }
  rewrite E, Z.sub_0_r. reflexivity.
Qed.

Lemma slice_to_prefix {A : Type} (l : list A) (k : Z) :
  prefix (PySeq.slice_to l k) l.
Proof.
  rewrite slice_to_firstn. eexists. symmetry. apply firstn_skipn.
Qed.

Lemma slice_to_length {A : Type} (l : list A) (k : Z) :
  (length (PySeq.slice_to l k) <= length l)%nat
  /\ ((0 <= k)%Z -> (Z.of_nat (length (PySeq.slice_to l k)) <= k)%Z).
Proof.
  rewrite slice_to_firstn, length_firstn. unfold PySeq.clamp. split; [lia|].
  intros Hk. destruct (Z.ltb_spec k 0); lia.
Qed.

(** ** Scores *)

Open Scope R_scope.

Lemma Rltb_true (a b : R) : a < b -> Rltb a b = true.
Proof. intros H. unfold Rltb. now destruct (Rlt_dec a b). Qed.

Lemma Rltb_false (a b : R) : ~ a < b -> Rltb a b = false.
Proof. intros H. unfold Rltb. now destruct (Rlt_dec a b). Qed.

Lemma Rltb_spec (a b : R) : Rltb a b = true <-> a < b.
Proof. unfold Rltb. destruct (Rlt_dec a b); split; intros; congruence || tauto. Qed.

Lemma Rltb_asym (a b : R) : Rltb a b = true -> Rltb b a = false.
Proof. intros H. apply Rltb_spec in H. apply Rltb_false. lra. Qed.

Lemma Rltb_nlt_trans (a b c : R) :
  Rltb b a = false -> Rltb c b = false -> Rltb c a = false.
Proof.
  intros H1 H2. apply Rltb_false. intros H.
  destruct (Rlt_dec b a) as [Hba|Hba]; [rewrite Rltb_true in H1; congruence|].
  destruct (Rlt_dec c b) as [Hcb|Hcb]; [rewrite Rltb_true in H2; congruence|].
  lra.
Qed.

Lemma Reqb_spec (a b : R) : Reqb a b = true <-> a = b.
Proof. unfold Reqb. destruct (Req_dec_T a b); split; intros; congruence || tauto. Qed.

(** *** Cosine similarity *)







Lemma cosine_similarity_ok (x y : vec) :
  length x = length y -> x <> [] ->
  cosine_similarity x y = Ok (dot (normalize x) (normalize y)).
Proof.
  intros Hlen Hne. unfold cosine_similarity.
  destruct x as [|x0 x]; [congruence|]. destruct y as [|y0 y]; [discriminate|].
  simpl length in *. simpl orb. cbv iota.
  now rewrite (proj2 (Nat.eqb_eq _ _) Hlen).
Qed.


(** *** Retrieval *)

Lemma traverse_Forall2 {A B : Type} (f : A -> result B) (l : list A) (l' : list B) :
  traverse f l = Ok l' -> Forall2 (fun x y => f x = Ok y) l l'.
Proof.
  revert l'. induction l as [|x l IH]; simpl; intros l' H.
  - injection H as <-. constructor.
  - destruct (f x) as [y|e] eqn:E; simpl in H; [|discriminate].
    destruct (traverse f l) as [ys|e]; simpl in H; [|discriminate].
    injection H as <-. constructor; [exact E | now apply IH].
Qed.

Section RetrievalFacts.

Variable get_embedding : str -> vec.
Variable load_chunks : string -> list chunk.

(** What [find_best_match] returns is the beginning of the scored chunks
    in sorted order. *)
Lemma find_best_match_inv (question : str) (table_name : string) (top_k : Z)
      (res : list scored_chunk) :
  find_best_match get_embedding load_chunks question table_name top_k = Ok res ->
  exists scored,
    Forall2 (fun c sc => score_chunk (get_embedding question) c = Ok sc)
            (load_chunks table_name) scored
    /\ res = PySeq.slice_to (sorted score Rltb true scored) top_k.
Proof.
  unfold find_best_match. intros H.
  destruct (traverse _ _) as [scored|e] eqn:E; simpl in H; [|discriminate].
  injection H as <-. exists scored. split; [|reflexivity].
  now apply traverse_Forall2.
Qed.

Lemma sorted_scores_descending (l : list scored_chunk) :
  StronglySorted (fun a b => score a >= score b) (sorted score Rltb true l).
Proof.
  unfold sorted.
  pose proof (@sort_stable_sorted _ _ score Rltb Rltb_asym Rltb_nlt_trans (rev l)) as H.
  apply StronglySorted_rev in H.
  eapply StronglySorted_ind with (P := fun l0 => StronglySorted (fun a b => score a >= score b) l0) in H;
    [exact H | constructor |].
  intros a l0 _ IH Ha. constructor; [exact IH|].
  eapply Forall_impl; [|exact Ha]. cbv beta. intros b Hb.
  destruct (Rlt_dec (score a) (score b)) as [Hlt|Hlt]; [|lra].
  rewrite Rltb_true in Hb; [discriminate | exact Hlt].
Qed.

End RetrievalFacts.

(** *** A worked query

    The question embeds to [(1, 0)]; the table holds the vectors [(0, 1)],
    [(2, 0)] and [(1, 0)], with scores 0, 1 and 1. *)

Lemma eps_small : 10 * eps < 1.
Proof.
  unfold eps.
  assert (H : 16 <= 2 ^ 52).
  { change 52%nat with (4 + 48)%nat. rewrite pow_add.
    assert (1 <= 2 ^ 48) by (apply pow_R1_Rle; lra).
    simpl (2 ^ 4). nra. }
  assert (Hi : / 2 ^ 52 <= / 16) by (apply Rinv_le_contravar; lra).
  lra.
Qed.

Lemma handle_zeros_in_scale_large (n : R) : 1 <= n -> handle_zeros_in_scale n = n.
Proof.
  intros H. unfold handle_zeros_in_scale. pose proof eps_small.
  destruct (Rlt_dec n (10 * eps)); [lra | reflexivity].
Qed.

Lemma row_norm_axis (a : R) : 0 <= a -> row_norm [a; 0] = a /\ row_norm [0; a] = a.
Proof.
  intros H. unfold row_norm, dot. simpl.
  split; (replace (_ + _) with (Rsqr a) by (unfold Rsqr; lra)); now apply sqrt_Rsqr.
Qed.

Lemma worked_scores :
  cosine_similarity [1; 0] [0; 1] = Ok 0
  /\ cosine_similarity [1; 0] [2; 0] = Ok 1
  /\ cosine_similarity [1; 0] [1; 0] = Ok 1.
Proof.
  assert (H1 : 0 <= 1) by lra. assert (H2 : 0 <= 2) by lra.
  destruct (row_norm_axis H1) as [N10 N01]. destruct (row_norm_axis H2) as [N20 _].
  repeat split; rewrite cosine_similarity_ok by (reflexivity || discriminate);
    f_equal; unfold normalize; rewrite ?N10, ?N01, ?N20;
    rewrite !handle_zeros_in_scale_large by lra; unfold dot; simpl; lra.
Qed.

Lemma worked_query (top_k : Z) :
  find_best_match (fun _ => [1; 0])
    (fun _ => [(1%Z, lit "a", [0; 1]); (2%Z, lit "b", [2; 0]); (3%Z, lit "c", [1; 0])])
    (lit "q") "discourse_chunks" top_k
  = Ok (PySeq.slice_to [(2%Z, lit "b", 1); (3%Z, lit "c", 1); (1%Z, lit "a", 0)] top_k).
Proof.
  destruct worked_scores as (S1 & S2 & S3).
  unfold find_best_match. cbn [traverse score_chunk].
  rewrite S1, S2, S3. cbn [bind]. do 2 f_equal.
  unfold sorted. cbn [rev app sort_stable insert score snd].
  repeat (first [rewrite Rltb_true by lra | rewrite Rltb_false by lra];
          cbn [rev app sort_stable insert score snd]).
  reflexivity.
Qed.

Lemma StronglySorted_map_inv {A B : Type} (R : B -> B -> Prop) (f : A -> B) (l : list A) :
  StronglySorted R (map f l) -> StronglySorted (fun x y => R (f x) (f y)) l.
Proof.
  induction l as [|a l IH]; simpl; intros H; [constructor|].
  inversion H as [|? ? Hs Ha]; subst. constructor; [now apply IH|].
  rewrite Forall_forall in *. intros x Hx. apply Ha. now apply in_map.
Qed.

Lemma score_chunk_inv (q : vec) (c : chunk) (sc : scored_chunk) :
  score_chunk q c = Ok sc ->
  id_of sc = id_of c /\ cosine_similarity q (emb_of c) = Ok (score sc).
Proof.
  destruct c as [[i content] emb]. unfold score_chunk.
  destruct (cosine_similarity q emb) as [s|e] eqn:E; simpl; [|discriminate].
  intros [= <-]. split; [reflexivity | exact E].
Qed.

Lemma scored_ids (q : vec) (chunks : list chunk) (scored : list scored_chunk) :
  Forall2 (fun c sc => score_chunk q c = Ok sc) chunks scored ->
  map id_of scored = map id_of chunks.
Proof.
  induction 1 as [|c sc chunks scored H _ IH]; [reflexivity|].
  simpl. rewrite IH. f_equal. now apply score_chunk_inv in H.
Qed.

Lemma same_score_level (s : R) (x y : scored_chunk) :
  Reqb (score x) s = true -> Reqb (score y) s = true ->
  Rltb (score y) (score x) = false.
Proof.
  intros Hx Hy. apply Reqb_spec in Hx, Hy. apply Rltb_false. lra.
Qed.

Lemma filter_prefix {A : Type} (f : A -> bool) (p l : list A) :
  prefix p l -> prefix (filter f p) (filter f l).
Proof. intros [r ->]. exists (filter f r). apply filter_app. Qed.

Lemma find_best_match_descending
      (get_embedding : str -> vec) (load_chunks : string -> list chunk)
      (question : str) (table_name : string) (top_k : Z) (res : list scored_chunk) :
  find_best_match get_embedding load_chunks question table_name top_k = Ok res ->
  StronglySorted (fun a b => score a >= score b) res.
Proof.
  intros H. apply find_best_match_inv in H as (scored & Hsc & ->).
  rewrite slice_to_firstn. apply StronglySorted_firstn, sorted_scores_descending.
Qed.

(** C1. Whatever the collection and [top_k], the list that
    [find_best_match] returns is in order of non-increasing score, and
    results of equal score stand in the order in which the collection holds
    their chunks: for every score [s], the results of score [s] are the
    first ones of the stored chunks of score [s].  When the collection is
    held in order of increasing id, results of equal score are in order of
    increasing id. *)
Theorem find_best_match_sorted_stable
        (get_embedding : str -> vec) (load_chunks : string -> list chunk)
        (question : str) (table_name : string) (top_k : Z) (res : list scored_chunk) :
  find_best_match get_embedding load_chunks question table_name top_k = Ok res ->
  StronglySorted (fun a b => score a >= score b) res
  /\ exists scored,
      Forall2 (fun c sc => score_chunk (get_embedding question) c = Ok sc)
              (load_chunks table_name) scored
      /\ (forall s, prefix (filter (fun c => Reqb (score c) s) res)
                           (filter (fun c => Reqb (score c) s) scored))
      /\ (StronglySorted Z.lt (map id_of (load_chunks table_name)) ->
          forall l1 a l2 b l3,
            res = l1 ++ a :: l2 ++ b :: l3 -> score a = score b ->
            (id_of a < id_of b)%Z).
Proof.
  intros H. split; [now apply find_best_match_descending in H|].
  apply find_best_match_inv in H as (scored & Hsc & ->).
  - exists scored. split; [exact Hsc|].
    assert (Hstable : forall s,
               prefix (filter (fun c => Reqb (score c) s)
                              (PySeq.slice_to (sorted score Rltb true scored) top_k))
                      (filter (fun c => Reqb (score c) s) scored)).
    { intros s.
      rewrite <- (@filter_sorted _ _ score Rltb (fun c => Reqb (score c) s)
                                 (@same_score_level s) true scored).
      apply filter_prefix, slice_to_prefix. }
    split; [exact Hstable|].
    intros Hids l1 a l2 b l3 E Hab.
    destruct (Hstable (score a)) as [r Hr]. rewrite E in Hr.
    rewrite <- (@scored_ids _ _ _ Hsc) in Hids. apply StronglySorted_map_inv in Hids.
    apply (StronglySorted_filter (fun c => Reqb (score c) (score a))) in Hids.
    rewrite Hr in Hids.
    rewrite filter_app in Hids. simpl in Hids.
    rewrite (proj2 (Reqb_spec (score a) (score a)) eq_refl) in Hids.
    rewrite filter_app in Hids. simpl in Hids.
    rewrite (proj2 (Reqb_spec (score b) (score a)) (eq_sym Hab)) in Hids.
    apply StronglySorted_app_inv in Hids as (Hids & _).
    apply StronglySorted_app_inv in Hids as (_ & Hids & _).
    inversion Hids as [|? ? _ Ha]; subst.
    rewrite Forall_forall in Ha. apply Ha, in_or_app. right. now left.
Qed.

Lemma find_best_match_sorted_stable_witness :
  StronglySorted (fun a b => score a >= score b)
                 [(2%Z, lit "b", 1); (3%Z, lit "c", 1)]
  /\ exists scored,
      Forall2 (fun c sc => score_chunk [1; 0] c = Ok sc)
              [(1%Z, lit "a", [0; 1]); (2%Z, lit "b", [2; 0]); (3%Z, lit "c", [1; 0])]
              scored
      /\ (forall s, prefix (filter (fun c => Reqb (score c) s)
                                   [(2%Z, lit "b", 1); (3%Z, lit "c", 1)])
                           (filter (fun c => Reqb (score c) s) scored))
      /\ (StronglySorted Z.lt
            (map id_of [(1%Z, lit "a", [0; 1]); (2%Z, lit "b", [2; 0]);
                        (3%Z, lit "c", [1; 0])]) ->
          forall l1 a l2 b l3,
            [(2%Z, lit "b", 1); (3%Z, lit "c", 1)] = l1 ++ a :: l2 ++ b :: l3 ->
            score a = score b -> (id_of a < id_of b)%Z).
Proof.
  exact (@find_best_match_sorted_stable
           (fun _ => [1; 0])
           (fun _ => [(1%Z, lit "a", [0; 1]); (2%Z, lit "b", [2; 0]);
                      (3%Z, lit "c", [1; 0])])
           (lit "q") "discourse_chunks" 2 _ (worked_query 2)).
Defined.

(** C6. For every query vector, collection and number [top_k] of results
    asked for, a number that is not negative, what [find_best_match]
    returns has at most [top_k] entries and at most as many entries as the
    collection has records; on an empty collection it returns the empty
    list, not an error.  It returns whenever the stored vectors have the
    dimension of the query vector, which is not zero. *)
Theorem find_best_match_length
        (get_embedding : str -> vec) (load_chunks : string -> list chunk)
        (question : str) (table_name : string) (top_k : Z) :
  (load_chunks table_name = [] ->
   find_best_match get_embedding load_chunks question table_name top_k = Ok [])
  /\ (forall res,
         find_best_match get_embedding load_chunks question table_name top_k = Ok res ->
         (length res <= length (load_chunks table_name))%nat
         /\ ((0 <= top_k)%Z -> (Z.of_nat (length res) <= top_k)%Z))
  /\ (get_embedding question <> [] ->
      Forall (fun c => length (emb_of c) = length (get_embedding question))
             (load_chunks table_name) ->
      exists res,
        find_best_match get_embedding load_chunks question table_name top_k = Ok res).
Proof.
  repeat apply conj.
  - intros E. unfold find_best_match. rewrite E. simpl.
    now rewrite slice_to_firstn, firstn_nil.
  - intros res H. apply find_best_match_inv in H as (scored & Hsc & ->).
    apply Forall2_length in Hsc. rewrite Hsc.
    rewrite <- (sorted_length score Rltb true scored).
    apply slice_to_length.
  - intros Hq Hdim. unfold find_best_match.
    assert (Ht : exists scored,
               traverse (score_chunk (get_embedding question)) (load_chunks table_name)
               = Ok scored).
    { induction Hdim as [|c l Hc _ [scored IH]]; [now exists []|].
      destruct c as [[i content] emb]. unfold emb_of in Hc. simpl in Hc.
      cbn [traverse score_chunk].
      rewrite cosine_similarity_ok by (symmetry; assumption) || assumption.
      cbn [bind]. rewrite IH. cbn [bind]. eexists. reflexivity. }
    destruct Ht as [scored ->]. eexists. reflexivity.
Qed.

Lemma find_best_match_length_witness :
  (length [(2%Z, lit "b", 1); (3%Z, lit "c", 1)] <= 3)%nat
  /\ ((0 <= 2)%Z -> (Z.of_nat (length [(2%Z, lit "b", 1); (3%Z, lit "c", 1)]) <= 2)%Z).
Proof.
  exact (proj1 (proj2 (@find_best_match_length
                         (fun _ => [1; 0])
                         (fun _ => [(1%Z, lit "a", [0; 1]); (2%Z, lit "b", [2; 0]);
                                    (3%Z, lit "c", [1; 0])])
                         (lit "q") "discourse_chunks" 2))
               _ (worked_query 2)).
Defined.



(** * Further properties of the code *)

Close Scope R_scope.

(** ** Cleaning and chunking *)

Lemma split_clean_text (t : str) : split (clean_text t) = split t.
Proof. rewrite clean_text_join_split. apply split_join, split_words. Qed.

(** Cleaning a second time changes nothing, and cleaning keeps the tokens
    of the text. *)
Theorem clean_text_idempotent (t : str) :
  clean_text (clean_text t) = clean_text t
  /\ split (clean_text t) = split t.
Proof.
  split; [|apply split_clean_text].
  now rewrite (clean_text_join_split (clean_text t)), split_clean_text,
    <- clean_text_join_split.
Qed.

Lemma sub_ws_from_length (b : bool) (s : str) :
  length (sub_ws_from b s) <= length s.
Proof.
  revert b. induction s as [|c r IH]; intros b; simpl; [lia|].
  pose proof (IH true) as Ht. pose proof (IH false) as Hf.
  destruct (isspace c); [destruct b|]; simpl; lia.
Qed.

Lemma lstrip_length (s : str) : length (lstrip s) <= length s.
Proof.
  induction s as [|c r IH]; simpl; [lia|]. destruct (isspace c); simpl; lia.
Qed.

(** Cleaning never makes a text longer, so a text under the 30 character
    limit of the ingestion stays under it. *)
Theorem clean_text_length (t : str) : length (clean_text t) <= length t.
Proof.
  unfold clean_text, strip, rstrip. rewrite length_rev.
  pose proof (lstrip_length (rev (lstrip (sub_ws t)))) as H1.
  rewrite length_rev in H1.
  pose proof (lstrip_length (sub_ws t)) as H2.
  pose proof (sub_ws_from_length false t) as H3. unfold sub_ws. unfold sub_ws in *. lia.
Qed.

(** The chunks depend on the tokens of the text only: the layout of its
    whitespace plays no part, and cleaning the text first gives the same
    chunks, or the same exception. *)
Theorem chunk_text_tokens_only (t t' : str) (w o : Z) :
  (split t = split t' -> chunk_text t w o = chunk_text t' w o)
  /\ chunk_text (clean_text t) w o = chunk_text t w o.
Proof.
  split.
  - intros E. unfold chunk_text. now rewrite E.
  - unfold chunk_text. now rewrite split_clean_text.
Qed.

Lemma chunk_text_tokens_only_witness :
  chunk_text (lit "a  b c ") 2 1 = chunk_text (lit " a b   c") 2 1.
Proof.
  apply (proj1 (chunk_text_tokens_only (lit "a  b c ") (lit " a b   c") 2 1)).
  reflexivity.
Defined.

(** A text without tokens, the empty text among them, gives no chunk when
    the overlap differs from the window size. *)
Theorem chunk_text_no_tokens (t : str) (w o : Z) :
  split t = [] -> w <> o -> chunk_text t w o = Ok [].
Proof.
  intros E Hwo. unfold chunk_text, PySeq.range, PySeq.range_length. rewrite E.
  destruct (Z.eqb_spec (w - o) 0); [lia|]. simpl.
  now destruct (0 <? w - o)%Z.
Qed.

Lemma chunk_text_no_tokens_witness :
  chunk_text [32; 10; 9]%N 5 7 = Ok [].
Proof.
  apply (@chunk_text_no_tokens [32; 10; 9]%N 5 7); [reflexivity | lia].
Defined.

(** With [0 <= overlap < chunk_size] the number of chunks is the number of
    tokens divided by the stride [chunk_size - overlap], rounded up. *)
Theorem chunk_text_count (t : str) (w o : Z) :
  (0 <= o)%Z -> (o < w)%Z ->
  exists cs,
    chunk_text t w o = Ok cs
    /\ Z.of_nat (length cs)
       = ((Z.of_nat (length (split t)) + (w - o) - 1) / (w - o))%Z.
Proof.
  intros Ho Hw. destruct (chunk_text_windows t Ho Hw) as (m & E & Hnil & Hcons).
  eexists. split; [exact E|]. rewrite length_map, length_seq.
  set (n := length (split t)) in *. set (s := (w - o)%Z) in *.
  assert (Hdec : split t = [] \/ split t <> [])
    by (destruct (split t); [left | right]; congruence).
  destruct Hdec as [En|Hne].
  - rewrite (Hnil En). unfold n. rewrite En. simpl.
    symmetry. apply Z.div_small. lia.
  - destruct (Hcons Hne) as (H1 & H2 & H3).
    apply Z.div_unique with (r := (Z.of_nat n + s - 1 - s * Z.of_nat m)%Z); [|lia].
    left. unfold s in *. nia.
Qed.

Lemma chunk_text_count_witness :
  exists cs,
    chunk_text (lit "a b c d e f g") 3 1 = Ok cs
    /\ Z.of_nat (length cs)
       = ((Z.of_nat (length (split (lit "a b c d e f g"))) + (3 - 1) - 1) / (3 - 1))%Z.
Proof.
  apply (@chunk_text_count (lit "a b c d e f g") 3 1); lia.
Defined.

(** With [0 <= overlap < chunk_size] every chunk has at least one token
    and at most [chunk_size] tokens. *)
Theorem chunk_text_chunk_size (t : str) (w o : Z) :
  (0 <= o)%Z -> (o < w)%Z ->
  exists cs,
    chunk_text t w o = Ok cs
    /\ Forall (fun c => (1 <= Z.of_nat (length (split c)) <= w)%Z) cs.
Proof.
  intros Ho Hw. destruct (chunk_text_windows t Ho Hw) as (m & E & Hnil & Hcons).
  eexists. split; [exact E|].
  pose proof (split_words t) as Hwords.
  apply Forall_map, Forall_forall. intros i Hi. apply in_seq in Hi.
  rewrite split_join by now apply Forall_window.
  rewrite length_firstn, length_skipn.
  assert (Hne : split t <> []) by (intros En; rewrite (Hnil En) in Hi; lia).
  destruct (Hcons Hne) as (H1 & H2 & H3). nia.
Qed.

Lemma chunk_text_chunk_size_witness :
  exists cs,
    chunk_text (lit "a b c d e f g") 3 1 = Ok cs
    /\ Forall (fun c => (1 <= Z.of_nat (length (split c)) <= 3)%Z) cs.
Proof.
  apply (@chunk_text_chunk_size (lit "a b c d e f g") 3 1); lia.
Defined.

Lemma map_seq_neighbours {A : Type} (f : nat -> A) (m : nat) (l1 l2 : list A) (c c' : A) :
  map f (seq 0 m) = l1 ++ c :: c' :: l2 ->
  c = f (length l1) /\ c' = f (S (length l1)).
Proof.
  intros E.
  assert (Hm : m = length l1 + 2 + length l2).
  { apply (f_equal (@length _)) in E.
    rewrite length_map, length_seq, length_app in E. simpl in E. lia. }
  split.
  - apply (f_equal (fun l => nth (length l1) l (f 0))) in E.
    rewrite map_nth, seq_nth, nth_middle in E by lia. now symmetry.
  - replace (l1 ++ c :: c' :: l2) with ((l1 ++ [c]) ++ c' :: l2) in E
      by now rewrite <- app_assoc.
    apply (f_equal (fun l => nth (length (l1 ++ [c])) l (f 0))) in E.
    rewrite map_nth, nth_middle in E. rewrite seq_nth in E.
    + rewrite length_app in E. simpl in E.
      replace (length l1 + 1) with (S (length l1)) in E by lia. now symmetry.
    + rewrite length_app. simpl. lia.
Qed.

(** With [0 <= overlap < chunk_size], of two chunks that follow each other
    the second begins with the tokens that the first holds from position
    [chunk_size - overlap] on: at most [overlap] tokens are repeated. *)
Theorem chunk_text_neighbours_overlap (t : str) (w o : Z) (cs l1 l2 : list str) (c c' : str) :
  (0 <= o)%Z -> (o < w)%Z ->
  chunk_text t w o = Ok cs ->
  cs = l1 ++ c :: c' :: l2 ->
  firstn (Z.to_nat o) (split c') = skipn (Z.to_nat (w - o)) (split c).
Proof.
  intros Ho Hw Hcs E. destruct (chunk_text_windows t Ho Hw) as (m & E' & _).
  rewrite Hcs in E'. injection E' as E'. rewrite E in E'. symmetry in E'.
  apply map_seq_neighbours in E' as [-> ->].
  pose proof (split_words t) as Hwords.
  rewrite !split_join by now apply Forall_window.
  rewrite firstn_firstn, skipn_firstn_comm, skipn_skipn.
  replace (Nat.min (Z.to_nat o) (Z.to_nat w)) with (Z.to_nat o) by lia.
  replace (Z.to_nat w - Z.to_nat (w - o)) with (Z.to_nat o) by lia.
  reflexivity.
Qed.

Lemma chunk_text_neighbours_overlap_witness :
  firstn (Z.to_nat 1) (split (lit "c d e"))
  = skipn (Z.to_nat (3 - 1)) (split (lit "a b c")).
Proof.
  apply (@chunk_text_neighbours_overlap (lit "a b c d e") 3 1
           [lit "a b c"; lit "c d e"; lit "e"] [] [lit "e"] (lit "a b c") (lit "c d e"));
    try lia; reflexivity.
Defined.

(** ** Stripping *)

Lemma lstrip_decompose (s : str) :
  exists a, s = a ++ lstrip s /\ Forall (fun c => isspace c = true) a.
Proof.
  induction s as [|c r (a & E & Ha)].
  - exists []. split; [reflexivity | constructor].
  - simpl. destruct (isspace c) eqn:Hc.
    + exists (c :: a). split; [simpl; now f_equal | now constructor].
    + exists []. split; [reflexivity | constructor].
Qed.

Lemma lstrip_no_leading_ws (s : str) : no_leading_ws (lstrip s).
Proof.
  induction s as [|c r IH]; intros x y E; [discriminate|].
  simpl in E. destruct (isspace c) eqn:Hc.
  - exact (IH x y E).
  - now injection E as <- _.
Qed.

Lemma rstrip_decompose (s : str) :
  exists b, s = rstrip s ++ b /\ Forall (fun c => isspace c = true) b.
Proof.
  destruct (lstrip_decompose (rev s)) as (a & E & Ha).
  exists (rev a). split.
  - unfold rstrip. rewrite <- rev_app_distr, <- E. now rewrite rev_involutive.
  - apply Forall_forall. intros c Hc. apply in_rev in Hc.
    rewrite Forall_forall in Ha. now apply Ha.
Qed.

Lemma rstrip_no_trailing_ws (s : str) : no_trailing_ws (rstrip s).
Proof.
  intros r c E. unfold rstrip in E. apply (f_equal (@rev _)) in E.
  rewrite rev_involutive, rev_app_distr in E. simpl in E.
  exact (@lstrip_no_leading_ws (rev s) c (rev r) E).
Qed.

(** [strip] takes away whitespace only, from the two ends only, and what
    it leaves neither begins nor ends with whitespace. *)
Lemma strip_spec (s : str) :
  (exists a b, s = a ++ strip s ++ b
               /\ Forall (fun c => isspace c = true) a
               /\ Forall (fun c => isspace c = true) b)
  /\ no_leading_ws (strip s) /\ no_trailing_ws (strip s).
Proof.
  unfold strip.
  destruct (lstrip_decompose s) as (a & Ea & Ha).
  destruct (rstrip_decompose (lstrip s)) as (b & Eb & Hb).
  repeat split.
  - exists a, b. repeat split; try assumption. now rewrite <- Eb.
  - intros c r E. rewrite E in Eb. simpl in Eb.
    exact (@lstrip_no_leading_ws s c (r ++ b) Eb).
  - apply rstrip_no_trailing_ws.
Qed.

(** ** The insertion loops *)

Lemma nth_error_skipn_cons {A : Type} (l : list A) (i : nat) (x : A) :
  nth_error l i = Some x -> skipn i l = x :: skipn (S i) l.
Proof.
  revert i. induction l as [|y l IH]; intros [|i] H; try discriminate.
  - now injection H as ->.
  - simpl in H. change (skipn i l = x :: skipn (S i) l). now apply IH.
Qed.

Lemma nth_error_combine {A B : Type} (l1 : list A) (l2 : list B) (i : nat) (x : A) (y : B) :
  nth_error l1 i = Some x -> nth_error l2 i = Some y ->
  nth_error (combine l1 l2) i = Some (x, y).
Proof.
  revert l2 i. induction l1 as [|a l1 IH]; intros [|b l2] [|i] H1 H2;
    try discriminate; simpl in *.
  - congruence.
  - now apply IH.
Qed.

Lemma nth_error_lt {A : Type} (l : list A) (i : nat) :
  i < length l -> exists x, nth_error l i = Some x.
Proof.
  intros H. destruct (nth_error l i) eqn:E; [eauto|].
  apply nth_error_None in E. lia.
Qed.

Section IndexLoop.

Variables C M : Type.
Variable ins : C -> M -> str -> list R -> C.
Variable es : list (list R).
Variable ms : list M.
Variable cs : list str.

Let body (conn : C) (i : nat) : result C :=
  emb <- index es i ;; m <- index ms i ;; c <- index cs i ;; Ok (ins conn m c emb).

Let put (conn : C) (row : M * str * list R) : C :=
  ins conn (fst (fst row)) (snd (fst row)) (snd row).

(** As long as the three lists are long enough, the loop inserts the rows
    that zipping them gives, one after the other. *)
Lemma index_loop_ok (n a : nat) (conn : C) :
  a + n <= length es -> a + n <= length ms -> a + n <= length cs ->
  for_each body (seq a n) conn
  = Ok (fold_left put (firstn n (skipn a (combine (combine ms cs) es))) conn).
Proof.
  revert a conn. induction n as [|n IH]; intros a conn He Hm Hc; [reflexivity|].
  destruct (@nth_error_lt _ es a) as [e Ee]; [lia|].
  destruct (@nth_error_lt _ ms a) as [m Em]; [lia|].
  destruct (@nth_error_lt _ cs a) as [c Ec]; [lia|].
  rewrite (nth_error_skipn_cons _ _
             (nth_error_combine _ _ _ (nth_error_combine _ _ _ Em Ec) Ee)).
  simpl. unfold body at 1, index. rewrite Ee, Em, Ec. simpl.
  rewrite IH by lia. reflexivity.
Qed.

(** The loop raises [IndexError] when the model returned fewer vectors
    than there are chunks. *)
Lemma index_loop_short (conn : C) :
  length ms = length cs -> length es < length cs ->
  for_each body (seq 0 (length cs)) conn = Raise IndexError.
Proof.
  intros Hm He.
  replace (length cs) with (length es + (length cs - length es)) at 1 by lia.
  rewrite seq_app, for_each_app, index_loop_ok by lia. simpl.
  destruct (length cs - length es) as [|k] eqn:Ek; [lia|].
  simpl. unfold body at 1, index.
  now rewrite (proj2 (nth_error_None es (length es)) (Nat.le_refl _)).
Qed.

End IndexLoop.

Lemma zip3_columns {M : Type} (ms : list M) (cs : list str) (es : list (list R)) :
  length ms = length cs -> length cs <= length es ->
  length (zip3 ms cs es) = length cs
  /\ map (fun r => fst (fst r)) (zip3 ms cs es) = ms
  /\ map (fun r => snd (fst r)) (zip3 ms cs es) = cs
  /\ map snd (zip3 ms cs es) = firstn (length cs) es.
Proof.
  unfold zip3. revert ms es.
  induction cs as [|c cs IH]; intros [|m ms] [|e es] Hm He;
    simpl in *; try lia; try (repeat split; reflexivity).
  destruct (IH ms es) as (H1 & H2 & H3 & H4); [lia | lia |].
  repeat split; congruence.
Qed.

Lemma next_id_above (ids : list Z) : Forall (fun i => (i < next_id ids)%Z) ids.
Proof.
  unfold next_id. induction ids as [|i ids IH]; [constructor|]. cbn [fold_right].
  constructor; [lia|]. eapply Forall_impl; [|exact IH]. cbv beta. intros a Ha. lia.
Qed.

Lemma ids_sorted_snoc (ids : list Z) :
  StronglySorted Z.lt ids -> StronglySorted Z.lt (ids ++ [next_id ids]).
Proof.
  intros H. apply StronglySorted_app; [exact H | repeat constructor |].
  intros x y Hx [<-|[]]. pose proof (next_id_above ids) as Ha.
  rewrite Forall_forall in Ha. now apply Ha.
Qed.

(** The chunks of a valid configuration, one by one. *)
Lemma chunk_text_chunks_shape (t : str) (w o : Z) (cs : list str) :
  (0 <= o)%Z -> (o < w)%Z -> chunk_text t w o = Ok cs ->
  Forall (fun c => c <> [] /\ clean_text c = c
                   /\ (1 <= Z.of_nat (length (split c)) <= w)%Z) cs.
Proof.
  intros Ho Hw Hcs. destruct (chunk_text_windows t Ho Hw) as (m & E & Hnil & Hcons).
  rewrite Hcs in E. injection E as ->.
  pose proof (split_words t) as Hwords.
  apply Forall_map, Forall_forall. intros i Hi. apply in_seq in Hi.
  assert (Hne : split t <> []) by (intros En; rewrite (Hnil En) in Hi; lia).
  destruct (Hcons Hne) as (H1 & H2 & H3).
  set (win := firstn (Z.to_nat w) (skipn (i * Z.to_nat (w - o)) (split t))).
  assert (Hww : Forall word win) by now apply Forall_window.
  assert (Hlen : 1 <= length win <= Z.to_nat w).
  { unfold win. rewrite length_firstn, length_skipn. nia. }
  repeat split.
  - apply join_words_nonnil; [exact Hww|]. destruct win; [simpl in Hlen; lia | discriminate].
  - now apply clean_text_join_words.
  - rewrite split_join by exact Hww. lia.
  - rewrite split_join by exact Hww. lia.
Qed.

Lemma chunk_text_default_ok (t : str) (cs : list str) :
  chunk_text t CHUNK_SIZE CHUNK_OVERLAP = Ok cs -> Forall chunk_ok cs.
Proof.
  intros H. apply chunk_text_chunks_shape in H;
    [exact H | unfold CHUNK_OVERLAP; lia | unfold CHUNK_SIZE, CHUNK_OVERLAP; lia].
Qed.

Section IngestionMore.

Variable json : Type.
Variable py_str : option json -> str.
Variable encode : list str -> list (list R).

Local Abbreviation text_of p := (match content p with Some c => c | None => [] end).

(** *** Gathering *)

Lemma discourse_loop_inv (l : list (post json)) (st : list str * list (discourse_meta json)) :
  length (snd st) = length (fst st) -> Forall chunk_ok (fst st) ->
  exists cs ms,
    for_each (discourse_step py_str) l st = Ok (cs, ms)
    /\ length ms = length cs /\ Forall chunk_ok cs.
Proof.
  revert st. induction l as [|p l IH]; intros st Hlen Hok.
  - exists (fst st), (snd st). simpl. now rewrite <- surjective_pairing.
  - simpl.
    destruct (Nat.lt_ge_cases (length (clean_text (text_of p))) 30) as [H|H].
    + rewrite discourse_step_short by assumption. simpl. now apply IH.
    + destruct (discourse_step_long py_str st p H) as (cs & E & _ & ->). simpl.
      apply IH; simpl.
      * rewrite !length_app, repeat_length. lia.
      * apply Forall_app. split; [assumption | now apply chunk_text_default_ok in E].
Qed.

Lemma markdown_loop_inv (l : list (str * str)) (st : list str * list markdown_meta) :
  length (snd st) = length (fst st) -> Forall chunk_ok (fst st) ->
  exists cs ms,
    for_each markdown_step l st = Ok (cs, ms)
    /\ length ms = length cs /\ Forall chunk_ok cs.
Proof.
  revert st. induction l as [|f l IH]; intros st Hlen Hok.
  - exists (fst st), (snd st). simpl. now rewrite <- surjective_pairing.
  - simpl.
    destruct (Nat.lt_ge_cases (length (clean_text (snd f))) 30) as [H|H].
    + rewrite markdown_step_short by assumption. simpl. now apply IH.
    + destruct (markdown_step_long st f H) as (cs & E & _ & ->). simpl.
      apply IH; simpl.
      * rewrite !length_app, length_map, length_seq. lia.
      * apply Forall_app. split; [assumption | now apply chunk_text_default_ok in E].
Qed.

(** What the gathering loops return is well formed: one metadata entry
    for each chunk, and every chunk is not empty, is left as it is by
    [clean_text] and has at most 1000 tokens. *)
Theorem gather_invariants :
  (forall (posts : list (post json)) cs ms,
      discourse_gather py_str posts = Ok (cs, ms) ->
      length ms = length cs /\ Forall chunk_ok cs)
  /\ (forall (files : list (str * str)) cs ms,
         markdown_gather files = Ok (cs, ms) ->
         length ms = length cs /\ Forall chunk_ok cs).
Proof.
  split; intros l cs ms H.
  - destruct (@discourse_loop_inv l ([], []) eq_refl (Forall_nil _))
      as (cs' & ms' & E & Hlen & Hok).
    fold (discourse_gather py_str l) in E. rewrite H in E.
    injection E as <- <-. now split.
  - destruct (@markdown_loop_inv l ([], []) eq_refl (Forall_nil _))
      as (cs' & ms' & E & Hlen & Hok).
    fold (markdown_gather l) in E. rewrite H in E.
    injection E as <- <-. now split.
Qed.

End IngestionMore.

Lemma gather_invariants_witness :
  length [{| meta_post_id := lit "1"; meta_url := @None Z |}] = length [a40]
  /\ Forall chunk_ok [a40].
Proof.
  apply (proj1 (@gather_invariants Z sample_str) [sample_post] [a40]
               [{| meta_post_id := lit "1"; meta_url := None |}]).
  vm_compute. reflexivity.
Defined.

Section StoreMore.

Variable json : Type.
Variable py_str : option json -> str.
Variable encode : list str -> list (list R).

(** *** What the insertion loops leave in the tables *)

Let put_discourse (conn : db json) (row : discourse_meta json * str * list R) : db json :=
  insert_discourse conn (meta_post_id (fst (fst row))) (meta_url (fst (fst row)))
                   (snd (fst row)) (snd row).

Let put_markdown (conn : db json) (row : markdown_meta * str * list R) : db json :=
  insert_markdown conn (meta_file_name (fst (fst row))) (meta_chunk_index (fst (fst row)))
                  (snd (fst row)) (snd row).

Lemma insert_rows_discourse (rows : list (discourse_meta json * str * list R)) (conn : db json) :
  exists new,
    fold_left put_discourse rows conn
    = {| discourse_chunks := discourse_chunks conn ++ new;
         markdown_chunks := markdown_chunks conn |}
    /\ map discourse_columns new
       = map (fun r => (meta_post_id (fst (fst r)), meta_url (fst (fst r)),
                        snd (fst r), snd r)) rows
    /\ (StronglySorted Z.lt (map (@d_id json) (discourse_chunks conn)) ->
        StronglySorted Z.lt (map (@d_id json) (discourse_chunks conn ++ new))).
Proof.
  revert conn. induction rows as [|r rows IH]; intros conn.
  - exists []. simpl. rewrite app_nil_r. repeat split; [now destruct conn | trivial].
  - simpl. destruct (IH (put_discourse conn r)) as (new & E & Hcol & Hid).
    unfold put_discourse, insert_discourse in E, Hid. simpl in E, Hid.
    eexists (_ :: new). rewrite <- app_assoc in E. simpl in E.
    split; [exact E|]. split; [simpl; now rewrite Hcol|].
    intros Hs. rewrite <- app_assoc in Hid. simpl in Hid. apply Hid.
    rewrite map_app. simpl. now apply ids_sorted_snoc.
Qed.

Lemma insert_rows_markdown (rows : list (markdown_meta * str * list R)) (conn : db json) :
  exists new,
    fold_left put_markdown rows conn
    = {| discourse_chunks := discourse_chunks conn;
         markdown_chunks := markdown_chunks conn ++ new |}
    /\ map markdown_columns new
       = map (fun r => (meta_file_name (fst (fst r)), meta_chunk_index (fst (fst r)),
                        snd (fst r), snd r)) rows
    /\ (StronglySorted Z.lt (map m_id (markdown_chunks conn)) ->
        StronglySorted Z.lt (map m_id (markdown_chunks conn ++ new))).
Proof.
  revert conn. induction rows as [|r rows IH]; intros conn.
  - exists []. simpl. rewrite app_nil_r. repeat split; [now destruct conn | trivial].
  - simpl. destruct (IH (put_markdown conn r)) as (new & E & Hcol & Hid).
    unfold put_markdown, insert_markdown in E, Hid. simpl in E, Hid.
    eexists (_ :: new). rewrite <- app_assoc in E. simpl in E.
    split; [exact E|]. split; [simpl; now rewrite Hcol|].
    intros Hs. rewrite <- app_assoc in Hid. simpl in Hid. apply Hid.
    rewrite map_app. simpl. now apply ids_sorted_snoc.
Qed.

(** The loop of [process_discourse] over gathered chunks. *)
Lemma discourse_insert_loop (conn : db json) (cs : list str) (ms : list (discourse_meta json)) :
  length ms = length cs ->
  (length cs <= length (encode cs) ->
   for_each (fun conn i =>
               emb <- index (encode cs) i ;;
               m <- index ms i ;;
               c <- index cs i ;;
               Ok (insert_discourse conn (meta_post_id m) (meta_url m) c emb))
            (seq 0 (length cs)) conn
   = Ok (fold_left put_discourse (zip3 ms cs (encode cs)) conn))
  /\ (length (encode cs) < length cs ->
      for_each (fun conn i =>
                  emb <- index (encode cs) i ;;
                  m <- index ms i ;;
                  c <- index cs i ;;
                  Ok (insert_discourse conn (meta_post_id m) (meta_url m) c emb))
               (seq 0 (length cs)) conn
      = Raise IndexError).
Proof.
  intros Hm. split; intros He.
  - etransitivity.
    + apply (@index_loop_ok _ _
               (fun conn m c e => insert_discourse conn (meta_post_id m) (meta_url m) c e)
               (encode cs) ms cs (length cs) 0 conn); lia.
    + simpl skipn. fold (zip3 ms cs (encode cs)).
      destruct (zip3_columns ms cs (encode cs) Hm He) as (Hl & _).
      rewrite <- Hl, firstn_all. reflexivity.
  - apply (@index_loop_short _ _
             (fun conn m c e => insert_discourse conn (meta_post_id m) (meta_url m) c e)
             (encode cs) ms cs conn); assumption.
Qed.

Lemma markdown_insert_loop (conn : db json) (cs : list str) (ms : list markdown_meta) :
  length ms = length cs ->
  (length cs <= length (encode cs) ->
   for_each (fun conn i =>
               emb <- index (encode cs) i ;;
               m <- index ms i ;;
               c <- index cs i ;;
               Ok (insert_markdown conn (meta_file_name m) (meta_chunk_index m) c emb))
            (seq 0 (length cs)) conn
   = Ok (fold_left put_markdown (zip3 ms cs (encode cs)) conn))
  /\ (length (encode cs) < length cs ->
      for_each (fun conn i =>
                  emb <- index (encode cs) i ;;
                  m <- index ms i ;;
                  c <- index cs i ;;
                  Ok (insert_markdown conn (meta_file_name m) (meta_chunk_index m) c emb))
               (seq 0 (length cs)) conn
      = Raise IndexError).
Proof.
  intros Hm. split; intros He.
  - etransitivity.
    + apply (@index_loop_ok _ _
               (fun conn m c e => insert_markdown conn (meta_file_name m) (meta_chunk_index m) c e)
               (encode cs) ms cs (length cs) 0 conn); lia.
    + simpl skipn. fold (zip3 ms cs (encode cs)).
      destruct (zip3_columns ms cs (encode cs) Hm He) as (Hl & _).
      rewrite <- Hl, firstn_all. reflexivity.
  - apply (@index_loop_short _ _
             (fun conn m c e => insert_markdown conn (meta_file_name m) (meta_chunk_index m) c e)
             (encode cs) ms cs conn); assumption.
Qed.

(** *** [process_discourse] and [process_markdown] case by case *)

Lemma process_discourse_cases (conn : db json) (posts : list (post json)) :
  exists cs ms,
    discourse_gather py_str posts = Ok (cs, ms)
    /\ length ms = length cs
    /\ Forall chunk_ok cs
    /\ (length cs <= length (encode cs) ->
        exists new,
          process_discourse py_str encode conn (Some posts)
          = Ok {| discourse_chunks := discourse_chunks conn ++ new;
                  markdown_chunks := markdown_chunks conn |}
          /\ map discourse_columns new
             = map (fun r => (meta_post_id (fst (fst r)), meta_url (fst (fst r)),
                              snd (fst r), snd r))
                   (zip3 ms cs (encode cs))
          /\ map (@d_content json) new = cs
          /\ (StronglySorted Z.lt (map (@d_id json) (discourse_chunks conn)) ->
              StronglySorted Z.lt (map (@d_id json) (discourse_chunks conn ++ new))))
    /\ (length (encode cs) < length cs ->
        process_discourse py_str encode conn (Some posts) = Raise IndexError).
Proof.
  destruct (@discourse_loop_inv json py_str posts ([], []) eq_refl (Forall_nil _))
    as (cs & ms & Eg & Hlen & Hok).
  exists cs, ms. fold (discourse_gather py_str posts) in Eg.
  repeat split; try assumption.
  - intros He. unfold process_discourse. rewrite Eg. simpl.
    rewrite (proj1 (discourse_insert_loop conn cs ms Hlen) He).
    destruct (insert_rows_discourse (zip3 ms cs (encode cs)) conn) as (new & E & Hcol & Hid).
    exists new. split; [now rewrite E|]. split; [exact Hcol|]. split; [|exact Hid].
    destruct (zip3_columns ms cs (encode cs) Hlen He) as (_ & _ & Hc & _).
    transitivity (map (fun x => snd (fst x)) (map discourse_columns new));
      [now rewrite map_map|].
    now rewrite Hcol, map_map.
  - intros He. unfold process_discourse. rewrite Eg. simpl.
    exact (proj2 (discourse_insert_loop conn cs ms Hlen) He).
Qed.

Lemma process_markdown_cases (conn : db json) (entries : list (str * str)) :
  exists cs ms,
    markdown_gather (filter (fun f => endswith (fst f) (lit ".md")) entries) = Ok (cs, ms)
    /\ length ms = length cs
    /\ Forall chunk_ok cs
    /\ (length cs <= length (encode cs) ->
        exists new,
          process_markdown encode conn (Some entries)
          = Ok {| discourse_chunks := discourse_chunks conn;
                  markdown_chunks := markdown_chunks conn ++ new |}
          /\ map markdown_columns new
             = map (fun r => (meta_file_name (fst (fst r)), meta_chunk_index (fst (fst r)),
                              snd (fst r), snd r))
                   (zip3 ms cs (encode cs))
          /\ map m_content new = cs
          /\ (StronglySorted Z.lt (map m_id (markdown_chunks conn)) ->
              StronglySorted Z.lt (map m_id (markdown_chunks conn ++ new))))
    /\ (length (encode cs) < length cs ->
        process_markdown encode conn (Some entries) = Raise IndexError).
Proof.
  set (files := filter (fun f => endswith (fst f) (lit ".md")) entries).
  destruct (@markdown_loop_inv files ([], []) eq_refl (Forall_nil _))
    as (cs & ms & Eg & Hlen & Hok).
  exists cs, ms. fold (markdown_gather files) in Eg.
  repeat split; try assumption.
  - intros He. unfold process_markdown. fold files.
    destruct files as [|f files'] eqn:Ef.
    + unfold markdown_gather in Eg. simpl in Eg. injection Eg as <- <-.
      exists []. simpl. rewrite app_nil_r. repeat split; [now destruct conn | trivial].
    + rewrite Eg. simpl.
      rewrite (proj1 (markdown_insert_loop conn cs ms Hlen) He).
      destruct (insert_rows_markdown (zip3 ms cs (encode cs)) conn) as (new & E & Hcol & Hid).
      exists new. split; [now rewrite E|]. split; [exact Hcol|]. split; [|exact Hid].
      destruct (zip3_columns ms cs (encode cs) Hlen He) as (_ & _ & Hc & _).
      transitivity (map (fun x => snd (fst x)) (map markdown_columns new));
        [now rewrite map_map|].
      now rewrite Hcol, map_map.
  - intros He. unfold process_markdown. fold files.
    destruct files as [|f files'] eqn:Ef.
    + unfold markdown_gather in Eg. simpl in Eg. injection Eg as <- <-.
      simpl in He. lia.
    + rewrite Eg. simpl.
      exact (proj2 (markdown_insert_loop conn cs ms Hlen) He).
Qed.

End StoreMore.

(** One window holds the whole text when the text has no more tokens than
    the stride. *)
Lemma chunk_text_one_window (t : str) (w o : Z) :
  (0 <= o)%Z ->
  (1 <= Z.of_nat (length (split t)) <= w - o)%Z ->
  chunk_text t w o = Ok [clean_text t].
Proof.
  intros Ho Hn.
  destruct (@chunk_text_windows t w o) as (m & E & Hnil & Hcons); [lia | lia |].
  assert (Hne : split t <> []) by (destruct (split t); [simpl in Hn; lia | discriminate]).
  destruct (Hcons Hne) as (H1 & H2 & H3).
  assert (m = 1) by nia. subst m. rewrite E. simpl.
  rewrite firstn_all2 by lia. now rewrite clean_text_join_split.
Qed.

Lemma create_tables_file_of {json : Type} (conn : db json) :
  Batch.create_tables (Batch.file_of conn) = conn.
Proof. now destruct conn. Qed.

Section IngestionTheorems.

Variable json : Type.
Variable py_str : option json -> str.
Variable encode : list str -> list (list R).

Local Abbreviation text_of p := (match content p with Some c => c | None => [] end).
Local Abbreviation md_files entries :=
  (filter (fun f : str * str => endswith (fst f) (lit ".md")) entries).

(** When the model returns at least one vector for each gathered chunk,
    [process_discourse] appends one row for each chunk, in order: the row
    holds the chunk, the id and url of its post, and the vector of the
    same position; the markdown table is left alone. *)
Theorem process_discourse_stores (conn : db json) (posts : list (post json))
        (cs : list str) (ms : list (discourse_meta json)) :
  discourse_gather py_str posts = Ok (cs, ms) ->
  length cs <= length (encode cs) ->
  exists new,
    process_discourse py_str encode conn (Some posts)
    = Ok {| discourse_chunks := discourse_chunks conn ++ new;
            markdown_chunks := markdown_chunks conn |}
    /\ map discourse_columns new
       = map (fun r => (meta_post_id (fst (fst r)), meta_url (fst (fst r)),
                        snd (fst r), snd r))
             (zip3 ms cs (encode cs))
    /\ map (@d_content json) new = cs
    /\ length new = length cs.
Proof.
  intros Eg He.
  destruct (process_discourse_cases py_str encode conn posts)
    as (cs' & ms' & Eg' & _ & _ & Hok & _).
  rewrite Eg in Eg'. injection Eg' as <- <-.
  destruct (Hok He) as (new & E & Hcol & Hc & _).
  exists new. repeat split; try assumption.
  rewrite <- Hc. now rewrite length_map.
Qed.

(** The same for [process_markdown], over the files whose name ends in
    [.md]: the row holds the chunk, the name of its file, its index within
    the file and the vector of the same position; the discourse table is
    left alone. *)
Theorem process_markdown_stores (conn : db json) (entries : list (str * str))
        (cs : list str) (ms : list markdown_meta) :
  markdown_gather (md_files entries) = Ok (cs, ms) ->
  length cs <= length (encode cs) ->
  exists new,
    process_markdown encode conn (Some entries)
    = Ok {| discourse_chunks := discourse_chunks conn;
            markdown_chunks := markdown_chunks conn ++ new |}
    /\ map markdown_columns new
       = map (fun r => (meta_file_name (fst (fst r)), meta_chunk_index (fst (fst r)),
                        snd (fst r), snd r))
             (zip3 ms cs (encode cs))
    /\ map m_content new = cs
    /\ length new = length cs.
Proof.
  intros Eg He.
  destruct (process_markdown_cases encode conn entries)
    as (cs' & ms' & Eg' & _ & _ & Hok & _).
  rewrite Eg in Eg'. injection Eg' as <- <-.
  destruct (Hok He) as (new & E & Hcol & Hc & _).
  exists new. repeat split; try assumption.
  rewrite <- Hc. now rewrite length_map.
Qed.

(** When the model returns fewer vectors than there are gathered chunks,
    both ingestion steps raise [IndexError]. *)
Theorem too_few_vectors_raise :
  (forall (conn : db json) posts cs ms,
      discourse_gather py_str posts = Ok (cs, ms) ->
      length (encode cs) < length cs ->
      process_discourse py_str encode conn (Some posts) = Raise IndexError)
  /\ (forall (conn : db json) entries cs ms,
         markdown_gather (md_files entries) = Ok (cs, ms) ->
         length (encode cs) < length cs ->
         process_markdown encode conn (Some entries) = Raise IndexError).
Proof.
  split.
  - intros conn posts cs ms Eg He.
    destruct (process_discourse_cases py_str encode conn posts)
      as (cs' & ms' & Eg' & _ & _ & _ & Hshort).
    rewrite Eg in Eg'. injection Eg' as <- <-. now apply Hshort.
  - intros conn entries cs ms Eg He.
    destruct (process_markdown_cases encode conn entries)
      as (cs' & ms' & Eg' & _ & _ & _ & Hshort).
    rewrite Eg in Eg'. injection Eg' as <- <-. now apply Hshort.
Qed.

(** *** What a successful step has done *)

Lemma process_discourse_inv (conn conn' : db json) (posts : option (list (post json))) :
  process_discourse py_str encode conn posts = Ok conn' ->
  exists new,
    conn' = {| discourse_chunks := discourse_chunks conn ++ new;
               markdown_chunks := markdown_chunks conn |}
    /\ Forall chunk_ok (map (@d_content json) new)
    /\ (StronglySorted Z.lt (map (@d_id json) (discourse_chunks conn)) ->
        StronglySorted Z.lt (map (@d_id json) (discourse_chunks conn ++ new)))
    /\ forall conn0 : db json,
        exists new0,
          process_discourse py_str encode conn0 posts
          = Ok {| discourse_chunks := discourse_chunks conn0 ++ new0;
                  markdown_chunks := markdown_chunks conn0 |}
          /\ map (@d_content json) new0 = map (@d_content json) new.
Proof.
  intros H. destruct posts as [posts|].
  - destruct (process_discourse_cases py_str encode conn posts)
      as (cs & ms & Eg & Hlen & Hcs & Hok & Hshort).
    destruct (le_lt_dec (length cs) (length (encode cs))) as [He|He].
    + destruct (Hok He) as (new & E & _ & Hc & Hid).
      rewrite E in H. injection H as <-.
      exists new. repeat split; try assumption; [now rewrite Hc|].
      intros conn0.
      destruct (process_discourse_cases py_str encode conn0 posts)
        as (cs0 & ms0 & Eg0 & _ & _ & Hok0 & _).
      rewrite Eg in Eg0. injection Eg0 as <- <-.
      destruct (Hok0 He) as (new0 & E0 & _ & Hc0 & _).
      exists new0. split; [exact E0 | congruence].
    + rewrite (Hshort He) in H. discriminate.
  - simpl in H. injection H as <-. exists []. rewrite app_nil_r.
    repeat split; [now destruct conn | constructor | trivial |].
    intros conn0. exists []. rewrite app_nil_r. split; [now destruct conn0 | reflexivity].
Qed.

Lemma process_markdown_inv (conn conn' : db json) (dir : option (list (str * str))) :
  process_markdown encode conn dir = Ok conn' ->
  exists new,
    conn' = {| discourse_chunks := discourse_chunks conn;
               markdown_chunks := markdown_chunks conn ++ new |}
    /\ Forall chunk_ok (map m_content new)
    /\ (StronglySorted Z.lt (map m_id (markdown_chunks conn)) ->
        StronglySorted Z.lt (map m_id (markdown_chunks conn ++ new)))
    /\ forall conn0 : db json,
        exists new0,
          process_markdown encode conn0 dir
          = Ok {| discourse_chunks := discourse_chunks conn0;
                  markdown_chunks := markdown_chunks conn0 ++ new0 |}
          /\ map m_content new0 = map m_content new.
Proof.
  intros H. destruct dir as [entries|].
  - destruct (process_markdown_cases encode conn entries)
      as (cs & ms & Eg & Hlen & Hcs & Hok & Hshort).
    destruct (le_lt_dec (length cs) (length (encode cs))) as [He|He].
    + destruct (Hok He) as (new & E & _ & Hc & Hid).
      rewrite E in H. injection H as <-.
      exists new. repeat split; try assumption; [now rewrite Hc|].
      intros conn0.
      destruct (process_markdown_cases encode conn0 entries)
        as (cs0 & ms0 & Eg0 & _ & _ & Hok0 & _).
      rewrite Eg in Eg0. injection Eg0 as <- <-.
      destruct (Hok0 He) as (new0 & E0 & _ & Hc0 & _).
      exists new0. split; [exact E0 | congruence].
    + rewrite (Hshort He) in H. discriminate.
  - simpl in H. injection H as <-. exists []. rewrite app_nil_r.
    repeat split; [now destruct conn | constructor | trivial |].
    intros conn0. exists []. rewrite app_nil_r. split; [now destruct conn0 | reflexivity].
Qed.

End IngestionTheorems.

Lemma process_discourse_stores_witness :
  exists new,
    process_discourse sample_str sample_encode empty_db (Some [sample_post])
    = Ok {| discourse_chunks := discourse_chunks empty_db ++ new;
            markdown_chunks := markdown_chunks empty_db |}
    /\ map discourse_columns new
       = map (fun r => (meta_post_id (fst (fst r)), meta_url (fst (fst r)),
                        snd (fst r), snd r))
             (zip3 [{| meta_post_id := lit "1"; meta_url := None |}] [a40]
                   (sample_encode [a40]))
    /\ map (@d_content Z) new = [a40]
    /\ length new = length [a40].
Proof.
  apply (@process_discourse_stores Z sample_str sample_encode empty_db [sample_post]
           [a40] [{| meta_post_id := lit "1"; meta_url := None |}]).
  - vm_compute. reflexivity.
  - simpl. lia.
Defined.

Lemma process_markdown_stores_witness :
  exists new,
    process_markdown sample_encode empty_db (Some [sample_file])
    = Ok {| discourse_chunks := discourse_chunks empty_db;
            markdown_chunks := markdown_chunks empty_db ++ new |}
    /\ map markdown_columns new
       = map (fun r => (meta_file_name (fst (fst r)), meta_chunk_index (fst (fst r)),
                        snd (fst r), snd r))
             (zip3 [{| meta_file_name := lit "notes.md"; meta_chunk_index := 0 |}] [a40]
                   (sample_encode [a40]))
    /\ map m_content new = [a40]
    /\ length new = length [a40].
Proof.
  apply (@process_markdown_stores Z sample_encode empty_db [sample_file]
           [a40] [{| meta_file_name := lit "notes.md"; meta_chunk_index := 0 |}]).
  - vm_compute. reflexivity.
  - simpl. lia.
Defined.

Lemma too_few_vectors_raise_witness :
  process_discourse sample_str silent_encode empty_db (Some [sample_post])
  = Raise IndexError
  /\ process_markdown silent_encode empty_db (Some [sample_file]) = Raise IndexError.
Proof.
  destruct (@too_few_vectors_raise Z sample_str silent_encode) as [Hd Hm]. split.
  - apply (Hd empty_db [sample_post] [a40] [{| meta_post_id := lit "1"; meta_url := None |}]).
    + vm_compute. reflexivity.
    + simpl. lia.
  - apply (Hm empty_db [sample_file] [a40]
              [{| meta_file_name := lit "notes.md"; meta_chunk_index := 0 |}]).
    + vm_compute. reflexivity.
    + simpl. lia.
Defined.

(** Ingestion only appends: a step that returns has kept every row that
    its table held, in place, and has not touched the other table. *)
Theorem ingestion_appends_only
        (json : Type) (py_str : option json -> str) (encode : list str -> list (list R)) :
  (forall (conn conn' : db json) posts,
      process_discourse py_str encode conn posts = Ok conn' ->
      prefix (discourse_chunks conn) (discourse_chunks conn')
      /\ markdown_chunks conn' = markdown_chunks conn)
  /\ (forall (conn conn' : db json) dir,
         process_markdown encode conn dir = Ok conn' ->
         prefix (markdown_chunks conn) (markdown_chunks conn')
         /\ discourse_chunks conn' = discourse_chunks conn).
Proof.
  split; intros conn conn' x H.
  - apply process_discourse_inv in H as (new & -> & _). simpl.
    split; [now exists new | reflexivity].
  - apply process_markdown_inv in H as (new & -> & _). simpl.
    split; [now exists new | reflexivity].
Qed.

Lemma ingestion_appends_only_witness :
  prefix (discourse_chunks sample_db) (discourse_chunks sample_db_again)
  /\ markdown_chunks sample_db_again = markdown_chunks sample_db.
Proof.
  apply (proj1 (@ingestion_appends_only Z sample_str sample_encode)
               sample_db sample_db_again (Some [sample_post])).
  vm_compute. reflexivity.
Defined.

(** Every stored chunk is well formed: when the contents of a table are
    not empty, unchanged by [clean_text] and of at most 1000 tokens, they
    still are after a step that returns. *)
Theorem ingestion_keeps_contents_clean
        (json : Type) (py_str : option json -> str) (encode : list str -> list (list R)) :
  (forall (conn conn' : db json) posts,
      process_discourse py_str encode conn posts = Ok conn' ->
      Forall chunk_ok (map (@d_content json) (discourse_chunks conn)) ->
      Forall chunk_ok (map (@d_content json) (discourse_chunks conn')))
  /\ (forall (conn conn' : db json) dir,
         process_markdown encode conn dir = Ok conn' ->
         Forall chunk_ok (map m_content (markdown_chunks conn)) ->
         Forall chunk_ok (map m_content (markdown_chunks conn'))).
Proof.
  split; intros conn conn' x H Hs.
  - apply process_discourse_inv in H as (new & -> & Hok & _). simpl.
    rewrite map_app. apply Forall_app. now split.
  - apply process_markdown_inv in H as (new & -> & Hok & _). simpl.
    rewrite map_app. apply Forall_app. now split.
Qed.

Lemma ingestion_keeps_contents_clean_witness :
  Forall chunk_ok
    (map (@d_content Z)
         (discourse_chunks
            sample_db)).
Proof.
  apply (proj1 (@ingestion_keeps_contents_clean Z sample_str sample_encode)
               empty_db sample_db (Some [sample_post])).
  - vm_compute. reflexivity.
  - constructor.
Defined.

(** A post whose cleaned content has at least 30 characters and at most
    800 tokens is stored as one row: the row holds the cleaned content, the
    id and url of the post, the first vector the model returns and a fresh
    id. *)
Theorem small_post_is_one_row
        (json : Type) (py_str : option json -> str) (encode : list str -> list (list R))
        (conn : db json) (p : post json) (e : list R) (rest : list (list R)) :
  30 <= length (clean_text (match content p with Some c => c | None => [] end)) ->
  (Z.of_nat (length (split (clean_text (match content p with Some c => c | None => [] end))))
   <= 800)%Z ->
  encode [clean_text (match content p with Some c => c | None => [] end)] = e :: rest ->
  process_discourse py_str encode conn (Some [p])
  = Ok {| discourse_chunks :=
            discourse_chunks conn ++
            [{| d_id := next_id (map (@d_id json) (discourse_chunks conn));
                d_post_id := py_str (post_id p);
                d_url := url p;
                d_content := clean_text (match content p with Some c => c | None => [] end);
                d_embedding := e |}];
          markdown_chunks := markdown_chunks conn |}.
Proof.
  set (text := clean_text _). intros Hlen Htok He.
  assert (Hone : chunk_text text CHUNK_SIZE CHUNK_OVERLAP = Ok [text]).
  { replace text with (clean_text text) at 2
      by (unfold text; now rewrite clean_text_join_split, split_clean_text,
                                   <- clean_text_join_split).
    apply chunk_text_one_window; [unfold CHUNK_OVERLAP; lia|].
    assert (Hne : split text <> []).
    { apply clean_text_tokens. fold text. destruct text; [simpl in Hlen; lia | discriminate]. }
    unfold CHUNK_SIZE, CHUNK_OVERLAP.
    destruct (split text); [congruence | simpl length in *; lia]. }
  unfold process_discourse, discourse_gather. simpl for_each.
  unfold discourse_step. fold text.
  destruct (Z.ltb_spec (Z.of_nat (length text)) 30); [lia|].
  rewrite Hone. simpl. rewrite He. reflexivity.
Qed.

Lemma small_post_is_one_row_witness :
  process_discourse sample_str sample_encode empty_db (Some [sample_post])
  = Ok {| discourse_chunks :=
            discourse_chunks empty_db ++
            [{| d_id := next_id (map (@d_id Z) (discourse_chunks empty_db));
                d_post_id := sample_str (post_id sample_post);
                d_url := url sample_post;
                d_content := clean_text (match content sample_post with
                                         | Some c => c | None => [] end);
                d_embedding := [1%R; 0%R] |}];
          markdown_chunks := markdown_chunks empty_db |}.
Proof.
  apply (@small_post_is_one_row Z sample_str sample_encode empty_db sample_post
           [1%R; 0%R] []).
  - vm_compute. lia.
  - vm_compute. discriminate.
  - reflexivity.
Defined.

(** Running the batch job again on the same inputs succeeds again and
    appends the same chunks once more: nothing is recognised as already
    stored. *)
Theorem main_again_appends_again
        (json : Type) (py_str : option json -> str) (encode : list str -> list (list R))
        (file : Batch.store json) (posts : option (list (post json)))
        (dir : option (list (str * str))) (conn1 : db json) :
  Batch.main py_str encode file posts dir = Ok conn1 ->
  exists conn2 dnew mnew,
    Batch.main py_str encode (Batch.file_of conn1) posts dir = Ok conn2
    /\ map (@d_content json) (discourse_chunks conn1)
       = map (@d_content json) (discourse_chunks (Batch.create_tables file)) ++ dnew
    /\ map (@d_content json) (discourse_chunks conn2)
       = map (@d_content json) (discourse_chunks conn1) ++ dnew
    /\ map m_content (markdown_chunks conn1)
       = map m_content (markdown_chunks (Batch.create_tables file)) ++ mnew
    /\ map m_content (markdown_chunks conn2)
       = map m_content (markdown_chunks conn1) ++ mnew.
Proof.
  unfold Batch.main. rewrite create_tables_file_of.
  set (conn0 := Batch.create_tables file). intros H.
  destruct (process_discourse py_str encode conn0 posts) as [c1|] eqn:E1;
    simpl in H; [|discriminate].
  apply process_discourse_inv in E1 as (dn & -> & _ & _ & Hd).
  apply process_markdown_inv in H as (mn & -> & _ & _ & Hm).
  match goal with
  | |- context [process_discourse py_str encode ?c posts] =>
      destruct (Hd c) as (dn' & Ed & Hdc)
  end.
  rewrite Ed. simpl.
  match goal with
  | |- context [process_markdown encode ?c dir] => destruct (Hm c) as (mn' & Em & Hmc)
  end.
  rewrite Em. simpl.
  eexists _, (map (@d_content json) dn), (map m_content mn).
  split; [reflexivity|]. simpl.
  rewrite !map_app. rewrite Hdc, Hmc. now repeat split.
Qed.

Lemma main_again_appends_again_witness :
  exists conn2 dnew mnew,
    Batch.main sample_str sample_encode (Batch.file_of sample_db) (Some [sample_post]) None
    = Ok conn2
    /\ map (@d_content Z) (discourse_chunks sample_db)
       = map (@d_content Z)
             (discourse_chunks
                (Batch.create_tables {| Batch.stored_discourse := None;
                                        Batch.stored_markdown := None |})) ++ dnew
    /\ map (@d_content Z) (discourse_chunks conn2)
       = map (@d_content Z) (discourse_chunks sample_db) ++ dnew
    /\ map m_content (markdown_chunks sample_db)
       = map m_content
             (markdown_chunks
                (Batch.create_tables {| Batch.stored_discourse := @None (list (discourse_row Z));
                                        Batch.stored_markdown := None |})) ++ mnew
    /\ map m_content (markdown_chunks conn2)
       = map m_content (markdown_chunks sample_db) ++ mnew.
Proof.
  apply (@main_again_appends_again Z sample_str sample_encode
           {| Batch.stored_discourse := None; Batch.stored_markdown := None |}
           (Some [sample_post]) None sample_db).
  vm_compute. reflexivity.
Defined.

Open Scope R_scope.

(** ** Retrieval *)

Lemma cosine_similarity_raise (x y : vec) (e : exn) :
  cosine_similarity x y = Raise e <->
  e = ValueError /\ (length x = 0 \/ length y <> length x)%nat.
Proof.
  unfold cosine_similarity.
  destruct (Nat.eqb_spec (length x) 0) as [Hx|Hx]; simpl.
  - split; [intros [= <-]; auto | intros [-> _]; reflexivity].
  - destruct (Nat.eqb_spec (length y) 0) as [Hy|Hy]; simpl.
    + split; [intros [= <-]; split; [reflexivity | right; lia]
             | intros [-> _]; reflexivity].
    + destruct (Nat.eqb_spec (length x) (length y)) as [Hxy|Hxy]; simpl.
      * split; [discriminate | intros [_ [H|H]]; lia].
      * split; [intros [= <-]; split; [reflexivity | right; lia]
               | intros [-> _]; reflexivity].
Qed.

Lemma score_chunk_raise (q : vec) (c : chunk) (e : exn) :
  score_chunk q c = Raise e <->
  e = ValueError /\ (length q = 0 \/ length (emb_of c) <> length q)%nat.
Proof.
  destruct c as [[i content] emb]. unfold score_chunk, emb_of. simpl snd.
  rewrite <- cosine_similarity_raise.
  destruct (cosine_similarity q emb) as [s|e']; simpl.
  - split; discriminate.
  - split; intros [= ->]; reflexivity.
Qed.

Lemma traverse_raise (q : vec) (chunks : list chunk) (e : exn) :
  traverse (score_chunk q) chunks = Raise e <->
  e = ValueError
  /\ Exists (fun c => length q = 0 \/ length (emb_of c) <> length q)%nat chunks.
Proof.
  revert e. induction chunks as [|c chunks IH]; intros e; simpl.
  - split; [discriminate | intros [_ H]; inversion H].
  - destruct (score_chunk q c) as [sc|e'] eqn:E; simpl.
    + destruct (traverse (score_chunk q) chunks) as [scs|e''] eqn:Et; simpl.
      * split; [discriminate|]. intros [-> H]. inversion H as [? ? Hc|? ? Hcs]; subst.
        -- assert (Hr : score_chunk q c = Raise ValueError)
             by (apply score_chunk_raise; auto).
           congruence.
        -- discriminate (proj2 (IH ValueError) (conj eq_refl Hcs)).
      * split.
        -- intros [= <-]. destruct (proj1 (IH e'') eq_refl) as [He H].
           split; [exact He | now apply Exists_cons_tl].
        -- intros [-> _]. destruct (proj1 (IH e'') eq_refl) as [-> _]. reflexivity.
    + apply score_chunk_raise in E as [-> Hc]. split.
      * intros [= <-]. split; [reflexivity | now apply Exists_cons_hd].
      * intros [-> _]. reflexivity.
Qed.

Lemma find_best_match_raise
      (get_embedding : str -> vec) (load_chunks : string -> list chunk)
      (question : str) (table_name : string) (top_k : Z) (e : exn) :
  find_best_match get_embedding load_chunks question table_name top_k = Raise e <->
  e = ValueError
  /\ Exists (fun c => length (get_embedding question) = 0
                      \/ length (emb_of c) <> length (get_embedding question))%nat
            (load_chunks table_name).
Proof.
  rewrite <- traverse_raise. unfold find_best_match.
  destruct (traverse _ _) as [scored|e']; simpl.
  - split; discriminate.
  - split; intros [= ->]; reflexivity.
Qed.

(** One stored vector whose dimension differs from that of the query
    vector, or a query vector without components and a table that is not
    empty, makes the whole retrieval raise [ValueError], whatever
    [top_k]. *)
Theorem find_best_match_value_error
        (get_embedding : str -> vec) (load_chunks : string -> list chunk)
        (question : str) (table_name : string) (top_k : Z) :
  Exists (fun c => length (get_embedding question) = 0
                   \/ length (emb_of c) <> length (get_embedding question))%nat
         (load_chunks table_name) ->
  find_best_match get_embedding load_chunks question table_name top_k
  = Raise ValueError.
Proof.
  intros H. apply find_best_match_raise. split; [reflexivity | exact H].
Qed.

Lemma find_best_match_value_error_witness :
  find_best_match (fun _ => [1; 0]) (fun _ => uneven_chunks) (lit "q")
                  "discourse_chunks" 2
  = Raise ValueError.
Proof.
  apply (@find_best_match_value_error (fun _ => [1; 0]) (fun _ => uneven_chunks)
           (lit "q") "discourse_chunks" 2).
  apply Exists_cons_tl, Exists_cons_hd. right. simpl. lia.
Defined.

Lemma insert_perm {A K : Type} (key : A -> K) (lt : K -> K -> bool) (x : A) (l : list A) :
  Permutation (insert key lt x l) (x :: l).
Proof.
  induction l as [|y r IH]; simpl; [reflexivity|].
  destruct (lt (key y) (key x)); [|reflexivity].
  rewrite IH. apply perm_swap.
Qed.

Lemma sorted_perm {A K : Type} (key : A -> K) (lt : K -> K -> bool) (reverse : bool)
      (l : list A) :
  Permutation (sorted key lt reverse l) l.
Proof.
  assert (H : forall l0, Permutation (sort_stable key lt l0) l0).
  { induction l0 as [|x r IH]; simpl; [reflexivity|]. now rewrite insert_perm, IH. }
  unfold sorted. destruct reverse; [|apply H].
  now rewrite <- Permutation_rev, H, <- Permutation_rev.
Qed.

(** The results are the best ones: they and the scored chunks left out
    make up the scored collection, each chunk once, and no chunk left out
    has a higher score than a result.  With [top_k] at least the size of
    the collection nothing is left out. *)
Theorem find_best_match_takes_the_best
        (get_embedding : str -> vec) (load_chunks : string -> list chunk)
        (question : str) (table_name : string) (top_k : Z) (res : list scored_chunk) :
  find_best_match get_embedding load_chunks question table_name top_k = Ok res ->
  exists scored rest,
    Forall2 (fun c sc => score_chunk (get_embedding question) c = Ok sc)
            (load_chunks table_name) scored
    /\ Permutation (res ++ rest) scored
    /\ (forall a b, In a res -> In b rest -> score a >= score b)
    /\ ((Z.of_nat (length (load_chunks table_name)) <= top_k)%Z -> rest = []).
Proof.
  intros H. apply find_best_match_inv in H as (scored & Hsc & ->).
  rewrite slice_to_firstn. rewrite sorted_length.
  set (j := Z.to_nat _). set (l := sorted score Rltb true scored).
  exists scored, (skipn j l). split; [exact Hsc|]. split; [|split].
  - rewrite firstn_skipn. apply sorted_perm.
  - pose proof (sorted_scores_descending scored) as Hs. fold l in Hs.
    rewrite <- (firstn_skipn j l) in Hs.
    now apply StronglySorted_app_inv in Hs as (_ & _ & Hs).
  - intros Hk. apply skipn_all2. unfold l. rewrite sorted_length.
    apply Forall2_length in Hsc. unfold j, PySeq.clamp.
    destruct (Z.ltb_spec top_k 0); lia.
Qed.

Lemma find_best_match_takes_the_best_witness :
  exists scored rest,
    Forall2 (fun c sc => score_chunk [1; 0] c = Ok sc) sample_chunks scored
    /\ Permutation ([(2%Z, lit "b", 1); (3%Z, lit "c", 1)] ++ rest) scored
    /\ (forall a b, In a [(2%Z, lit "b", 1); (3%Z, lit "c", 1)] -> In b rest ->
                    score a >= score b)
    /\ ((Z.of_nat (length sample_chunks) <= 2)%Z -> rest = []).
Proof.
  exact (@find_best_match_takes_the_best
           (fun _ => [1; 0]) (fun _ => sample_chunks)
           (lit "q") "discourse_chunks" 2 _ (worked_query 2)).
Defined.

(** The number of results: [top_k] or the size of the collection,
    whichever is smaller, for [top_k >= 0]; the size of the collection less
    [|top_k|], or none, for [top_k < 0]. *)
Theorem find_best_match_count
        (get_embedding : str -> vec) (load_chunks : string -> list chunk)
        (question : str) (table_name : string) (top_k : Z) (res : list scored_chunk) :
  find_best_match get_embedding load_chunks question table_name top_k = Ok res ->
  ((0 <= top_k)%Z ->
   Z.of_nat (length res) = Z.min top_k (Z.of_nat (length (load_chunks table_name))))
  /\ ((top_k < 0)%Z ->
      Z.of_nat (length res)
      = Z.max 0 (Z.of_nat (length (load_chunks table_name)) + top_k)).
Proof.
  intros H. apply find_best_match_inv in H as (scored & Hsc & ->).
  apply Forall2_length in Hsc.
  rewrite slice_to_firstn, length_firstn, sorted_length, Hsc.
  unfold PySeq.clamp. destruct (Z.ltb_spec top_k 0); split; intros; lia.
Qed.

Lemma find_best_match_count_witness :
  ((0 <= 2)%Z ->
   Z.of_nat (length [(2%Z, lit "b", 1); (3%Z, lit "c", 1)])
   = Z.min 2 (Z.of_nat (length sample_chunks)))
  /\ ((2 < 0)%Z ->
      Z.of_nat (length [(2%Z, lit "b", 1); (3%Z, lit "c", 1)])
      = Z.max 0 (Z.of_nat (length sample_chunks) + 2)).
Proof.
  exact (@find_best_match_count
           (fun _ => [1; 0]) (fun _ => sample_chunks)
           (lit "q") "discourse_chunks" 2 _ (worked_query 2)).
Defined.

Close Scope R_scope.

(** ** The endpoint *)

Lemma find_best_match_at_most
      (get_embedding : str -> vec) (load_chunks : string -> list chunk)
      (question : str) (table_name : string) (top_k : Z) (res : list scored_chunk) :
  find_best_match get_embedding load_chunks question table_name top_k = Ok res ->
  (0 <= top_k)%Z -> (Z.of_nat (length res) <= top_k)%Z.
Proof.
  intros H Hk. apply find_best_match_inv in H as (scored & _ & ->).
  now apply slice_to_length.
Qed.

Lemma answer_question_inv
      (get_embedding : str -> vec) (load_chunks : string -> list chunk) (llm : str -> str)
      (question : str) (r : Api.response) :
  Api.answer_question get_embedding load_chunks llm question = Ok r ->
  exists d m,
    find_best_match get_embedding load_chunks question "discourse_chunks" 2 = Ok d
    /\ find_best_match get_embedding load_chunks question "markdown_chunks" 2 = Ok m
    /\ r = {| Api.answer :=
                Api.generate_answer llm question
                  (join [Api.newline] (map (fun x => snd (fst x)) (d ++ m)));
              Api.links := [] |}.
Proof.
  unfold Api.answer_question. intros H.
  destruct (find_best_match _ _ _ "discourse_chunks" 2) as [d|] eqn:Ed;
    simpl in H; [|discriminate].
  destruct (find_best_match _ _ _ "markdown_chunks" 2) as [m|] eqn:Em;
    simpl in H; [|discriminate].
  injection H as <-. now exists d, m.
Qed.

(** The context that the endpoint hands to the model is made of the
    contents of at most two discourse chunks followed by those of at most
    two markdown chunks, the results of the two retrievals in their order,
    joined by newlines. *)
Theorem answer_question_context
        (get_embedding : str -> vec) (load_chunks : string -> list chunk) (llm : str -> str)
        (question : str) (r : Api.response) :
  Api.answer_question get_embedding load_chunks llm question = Ok r ->
  exists d m,
    find_best_match get_embedding load_chunks question "discourse_chunks" 2 = Ok d
    /\ find_best_match get_embedding load_chunks question "markdown_chunks" 2 = Ok m
    /\ length d <= 2 /\ length m <= 2
    /\ Api.answer r
       = Api.generate_answer llm question
           (join [Api.newline]
                 (map (fun x => snd (fst x)) d ++ map (fun x => snd (fst x)) m)).
Proof.
  intros H. apply answer_question_inv in H as (d & m & Ed & Em & ->).
  exists d, m. repeat split; try assumption.
  - apply find_best_match_at_most in Ed; lia.
  - apply find_best_match_at_most in Em; lia.
  - simpl. now rewrite map_app.
Qed.

(** A response carries no links, and its answer is the text of the model
    without the whitespace at its two ends. *)
Theorem answer_question_response
        (get_embedding : str -> vec) (load_chunks : string -> list chunk) (llm : str -> str)
        (question : str) (r : Api.response) :
  Api.answer_question get_embedding load_chunks llm question = Ok r ->
  Api.links r = []
  /\ no_leading_ws (Api.answer r)
  /\ no_trailing_ws (Api.answer r)
  /\ exists prompt before after,
      llm prompt = before ++ Api.answer r ++ after
      /\ Forall (fun c => isspace c = true) before
      /\ Forall (fun c => isspace c = true) after.
Proof.
  intros H. apply answer_question_inv in H as (d & m & _ & _ & ->). simpl.
  unfold Api.generate_answer.
  set (prompt := _ ++ _).
  destruct (strip_spec (llm prompt)) as ((a & b & E & Ha & Hb) & Hl & Ht).
  repeat split; try assumption.
  exists prompt, a, b. now repeat split.
Qed.

(** A retrieval that fails makes the endpoint fail, before the model is
    asked: it raises [ValueError] when a table holds a vector of another
    dimension than that of the question, or when the question embeds to a
    vector without components and a table is not empty. *)
Theorem answer_question_raises
        (get_embedding : str -> vec) (load_chunks : string -> list chunk) (llm : str -> str)
        (question : str) :
  Exists (fun c => length (get_embedding question) = 0
                   \/ length (emb_of c) <> length (get_embedding question))
         (load_chunks "discourse_chunks"%string ++ load_chunks "markdown_chunks"%string) ->
  Api.answer_question get_embedding load_chunks llm question = Raise ValueError.
Proof.
  rewrite Exists_app. unfold Api.answer_question. intros [H|H].
  - rewrite (proj2 (find_best_match_raise get_embedding load_chunks question
                      "discourse_chunks" 2 ValueError) (conj eq_refl H)).
    reflexivity.
  - destruct (find_best_match _ _ _ "discourse_chunks" 2) as [d|e] eqn:Ed; simpl.
    + rewrite (proj2 (find_best_match_raise get_embedding load_chunks question
                        "markdown_chunks" 2 ValueError) (conj eq_refl H)).
      reflexivity.
    + now apply find_best_match_raise in Ed as [-> _].
Qed.

Lemma answer_question_raises_witness :
  Api.answer_question (fun _ => [1%R; 0%R]) (fun _ => uneven_chunks) sample_llm (lit "q")
  = Raise ValueError.
Proof.
  apply (@answer_question_raises (fun _ => [1%R; 0%R]) (fun _ => uneven_chunks)
           sample_llm (lit "q")).
  apply Exists_cons_tl, Exists_cons_hd. right. simpl. lia.
Defined.

(** With both tables empty the endpoint still answers: the model is asked
    with an empty context. *)
Theorem answer_question_empty_store
        (get_embedding : str -> vec) (load_chunks : string -> list chunk) (llm : str -> str)
        (question : str) :
  load_chunks "discourse_chunks"%string = [] ->
  load_chunks "markdown_chunks"%string = [] ->
  Api.answer_question get_embedding load_chunks llm question
  = Ok {| Api.answer := Api.generate_answer llm question []; Api.links := [] |}.
Proof.
  intros Hd Hm. unfold Api.answer_question, find_best_match.
  rewrite Hd, Hm. reflexivity.
Qed.

Lemma answer_question_empty_store_witness :
  Api.answer_question (fun _ => []) (fun _ => []) (fun p => p) (lit "q")
  = Ok {| Api.answer := Api.generate_answer (fun p => p) (lit "q") []; Api.links := [] |}.
Proof.
  apply (@answer_question_empty_store (fun _ => []) (fun _ => []) (fun p => p) (lit "q"));
    reflexivity.
Defined.

Lemma worked_answer :
  Api.answer_question (fun _ => [1%R; 0%R]) (fun _ => sample_chunks) sample_llm (lit "q")
  = Ok sample_response.
Proof.
  assert (Hq : forall table_name,
             find_best_match (fun _ => [1%R; 0%R]) (fun _ => sample_chunks)
                             (lit "q") table_name 2
             = Ok [(2%Z, lit "b", 1%R); (3%Z, lit "c", 1%R)]).
  { intros table_name. destruct worked_scores as (S1 & S2 & S3).
    unfold find_best_match, sample_chunks. cbn [traverse score_chunk].
    rewrite S1, S2, S3. cbn [bind]. f_equal.
    unfold sorted. cbn [rev app sort_stable insert score snd].
    repeat (first [rewrite Rltb_true by lra | rewrite Rltb_false by lra];
            cbn [rev app sort_stable insert score snd]).
    reflexivity. }
  unfold Api.answer_question. rewrite !Hq. reflexivity.
Qed.

Lemma answer_question_context_witness :
  exists d m,
    find_best_match (fun _ => [1%R; 0%R]) (fun _ => sample_chunks) (lit "q")
                    "discourse_chunks" 2 = Ok d
    /\ find_best_match (fun _ => [1%R; 0%R]) (fun _ => sample_chunks) (lit "q")
                       "markdown_chunks" 2 = Ok m
    /\ length d <= 2 /\ length m <= 2
    /\ Api.answer sample_response
       = Api.generate_answer sample_llm (lit "q")
           (join [Api.newline]
                 (map (fun x => snd (fst x)) d ++ map (fun x => snd (fst x)) m)).
Proof.
  exact (@answer_question_context (fun _ => [1%R; 0%R]) (fun _ => sample_chunks)
           sample_llm (lit "q") sample_response worked_answer).
Defined.

Lemma answer_question_response_witness :
  Api.links sample_response = []
  /\ no_leading_ws (Api.answer sample_response)
  /\ no_trailing_ws (Api.answer sample_response)
  /\ exists prompt before after,
      sample_llm prompt = before ++ Api.answer sample_response ++ after
      /\ Forall (fun c => isspace c = true) before
      /\ Forall (fun c => isspace c = true) after.
Proof.
  exact (@answer_question_response (fun _ => [1%R; 0%R]) (fun _ => sample_chunks)
           sample_llm (lit "q") sample_response worked_answer).
Defined.

(** ** Markdown files *)

Lemma skipn_length_app {A : Type} (p l : list A) : skipn (length p) (p ++ l) = l.
Proof. induction p as [|x p IH]; [reflexivity | exact IH]. Qed.

Lemma endswith_spec (name suffix : str) :
  endswith name suffix = true <-> exists p, name = p ++ suffix.
Proof.
  unfold endswith.
  destruct (list_eq_dec N.eq_dec (skipn (length name - length suffix) name) suffix)
    as [E|E].
  - split; [intros _|reflexivity].
    exists (firstn (length name - length suffix) name).
    rewrite <- E at 2. symmetry. apply firstn_skipn.
  - split; [discriminate|]. intros [p ->]. exfalso. apply E.
    rewrite length_app, Nat.add_sub. apply skipn_length_app.
Qed.

(** Only files whose name ends in [.md] are ingested: an entry of the
    directory with another name changes nothing, whatever it holds. *)
Theorem process_markdown_reads_md_only
        (json : Type) (encode : list str -> list (list R)) (conn : db json)
        (d1 d2 : list (str * str)) (f : str * str) :
  (forall p, fst f <> p ++ lit ".md") ->
  process_markdown encode conn (Some (d1 ++ f :: d2))
  = process_markdown encode conn (Some (d1 ++ d2)).
Proof.
  intros H. unfold process_markdown. rewrite !filter_app. simpl filter.
  destruct (endswith (fst f) (lit ".md")) eqn:E; [|reflexivity].
  apply endswith_spec in E as [p E]. now destruct (H p).
Qed.

Lemma process_markdown_reads_md_only_witness :
  process_markdown sample_encode empty_db (Some ([] ++ (lit "notes.txt", a40) :: []))
  = process_markdown sample_encode empty_db (Some ([] ++ [])).
Proof.
  apply (@process_markdown_reads_md_only Z sample_encode empty_db [] [] (lit "notes.txt", a40)).
  intros p E. apply (f_equal (@rev _)) in E. rewrite rev_app_distr in E.
  vm_compute in E. discriminate.
Defined.
